(** * srt_translator: parsing, batching, translation gateway and reconciliation

    A shallow embedding of [srtpy/srt_translator.py].

    Modelling conventions
    - A Python [str] is a list of Unicode code points ([list N]); [len] is
      the length of that list.  Literals are written with [py "..."].
    - Python integers are [Z]; the running output index, which only counts
      upwards from 0, is a [nat].
    - A call either returns or raises: [outcome].
    - The translation backend and [time.sleep] are the only effects the
      properties below depend on; they are threaded through an explicit
      [world].  Reading the input file and the optional write of the result
      (lines 118-120 and 159-162) are left out: the run is given the file
      content as [f.read()] returns it, and the returned string does not
      depend on the write.  The messages printed on a failed invocation are
      not recorded. *)

From Stdlib Require Import String Ascii.
From Stdlib Require Import List ZArith NArith Bool Lia.
From Stdlib Require DecimalNat DecimalFacts.
Import ListNotations.

(** ** Python strings *)

Definition str := list N.

(** Reads a literal the way Python source does: a backslash followed by
    [n], [r] or [t] stands for LF, CR or TAB, and a doubled backslash for
    one; every other character is its own code point. *)
Fixpoint py (s : string) : str :=
  match s with
  | EmptyString => []
  | String c s' =>
      if Ascii.eqb c "\" then
        match s' with
        | String d s'' =>
            if Ascii.eqb d "n" then 10%N :: py s''
            else if Ascii.eqb d "r" then 13%N :: py s''
            else if Ascii.eqb d "t" then 9%N :: py s''
            else if Ascii.eqb d "\" then 92%N :: py s''
            else N_of_ascii c :: py s'
        | EmptyString => [N_of_ascii c]
        end
      else N_of_ascii c :: py s'
  end.

Definition LF : N := 10.
Definition CR : N := 13.
Definition SPACE : N := 32.
Definition BAR : N := 124.

(** The code points for which [str.isspace] holds; [str.strip()] removes
    them from both ends. *)
Definition is_space (c : N) : bool :=
  ((9 <=? c) && (c <=? 13)
   || (28 <=? c) && (c <=? 32)
   || (c =? 133) || (c =? 160) || (c =? 5760)
   || (8192 <=? c) && (c <=? 8202)
   || (c =? 8232) || (c =? 8233) || (c =? 8239) || (c =? 8287)
   || (c =? 12288))%N.

Fixpoint lstrip (s : str) : str :=
  match s with
  | c :: s' => if is_space c then lstrip s' else s
  | [] => []
  end.

Definition rstrip (s : str) : str := rev (lstrip (rev s)).

(** [s.strip()] *)
Definition strip (s : str) : str := rstrip (lstrip s).

(** Truth value of a [str]: non-empty. *)
Definition truthy (s : str) : bool :=
  match s with [] => false | _ :: _ => true end.

(** Adds a character to the piece under construction (the first one). *)
Definition push_char (c : N) (pieces : list str) : list str :=
  match pieces with
  | p :: ps => (c :: p) :: ps
  | [] => [[c]]
  end.

(** [s.split(sep)] for a one-character separator: every occurrence splits,
    empty pieces are kept. *)
Fixpoint split_char (sep : N) (s : str) : list str :=
  match s with
  | [] => [[]]
  | c :: s' =>
      if (c =? sep)%N then [] :: split_char sep s'
      else push_char c (split_char sep s')
  end.

(** [re.split(r'\r\n|\n', s)]: scanning from the left, a CR LF pair or a
    lone LF ends the current piece. *)
Fixpoint split_lines (s : str) : list str :=
  match s with
  | [] => [[]]
  | c :: s' =>
      if (c =? LF)%N then [] :: split_lines s'
      else
        match s' with
        | d :: s'' =>
            if (c =? CR)%N && (d =? LF)%N then [] :: split_lines s''
            else push_char c (split_lines s')
        | [] => push_char c (split_lines s')
        end
  end.

(** [re.split(r'\r\n\r\n|\n\n', s)]: at each position the separator is
    CR LF CR LF or LF LF (they start differently, so at most one applies);
    otherwise the character belongs to the piece. *)
Fixpoint split_blocks (s : str) : list str :=
  match s with
  | [] => [[]]
  | c :: s' =>
      match s' with
      | d :: s'' =>
          if (c =? LF)%N && (d =? LF)%N then [] :: split_blocks s''
          else
            match s'' with
            | e :: f :: s4 =>
                if (c =? CR)%N && (d =? LF)%N && (e =? CR)%N && (f =? LF)%N
                then [] :: split_blocks s4
                else push_char c (split_blocks s')
            | _ => push_char c (split_blocks s')
            end
      | [] => push_char c (split_blocks s')
      end
  end.

(** [sep.join(parts)] *)
Fixpoint join (sep : str) (parts : list str) : str :=
  match parts with
  | [] => []
  | [p] => p
  | p :: ps => p ++ sep ++ join sep ps
  end.

(** Decimal rendering of a non-negative integer, as [f"{n}"] gives it. *)
Fixpoint uint_codes (u : Decimal.uint) : str :=
  match u with
  | Decimal.Nil => []
  | Decimal.D0 u => 48%N :: uint_codes u
  | Decimal.D1 u => 49%N :: uint_codes u
  | Decimal.D2 u => 50%N :: uint_codes u
  | Decimal.D3 u => 51%N :: uint_codes u
  | Decimal.D4 u => 52%N :: uint_codes u
  | Decimal.D5 u => 53%N :: uint_codes u
  | Decimal.D6 u => 54%N :: uint_codes u
  | Decimal.D7 u => 55%N :: uint_codes u
  | Decimal.D8 u => 56%N :: uint_codes u
  | Decimal.D9 u => 57%N :: uint_codes u
  end.

Definition format_nat (n : nat) : str := uint_codes (Nat.to_uint n).

(** ** [int(s)] on a string

    The interpreter first rewrites the string: code points below 127 stay
    as they are, any other whitespace becomes a space, any other decimal
    digit becomes the ASCII digit of its value, and anything else becomes
    a question mark.  It then reads the result as a C string: ASCII
    whitespace (TAB to CR, and the space) is skipped at both ends, one
    sign is allowed, and the digits may be separated by single
    underscores.  More digits than the interpreter's limit (4300 unless
    configured otherwise) are refused.  [None] stands for [ValueError].
    The parsed index is stored in the segment and never read again. *)

Definition digit_value (c : N) : option Z :=
  if ((48 <=? c) && (c <=? 57))%N then Some (Z.of_N c - 48)%Z else None.

(** [after_digit] tells whether the previous character was a digit, which
    is where an underscore or the end of the literal may stand. *)
Fixpoint parse_digits (after_digit : bool) (acc : Z) (s : str) : option Z :=
  match s with
  | [] => if after_digit then Some acc else None
  | c :: s' =>
      match digit_value c with
      | Some d => parse_digits true (acc * 10 + d)%Z s'
      | None =>
          if (c =? 95)%N && after_digit then parse_digits false acc s'
          else None
      end
  end.

(** Whitespace for the C parser. *)
Definition is_ascii_space (c : N) : bool :=
  ((9 <=? c) && (c <=? 13) || (c =? 32))%N.

(** The decimal digits outside ASCII (Unicode 14.0): each entry is the
    code point of the digit zero of a run of ten digits. *)
Definition decimal_runs : list N :=
  [1632; 1776; 1984; 2406; 2534; 2662; 2790; 2918; 3046; 3174; 3302; 3430;
   3558; 3664; 3792; 3872; 4160; 4240; 6112; 6160; 6470; 6608; 6784; 6800;
   6992; 7088; 7232; 7248; 42528; 43216; 43264; 43472; 43504; 43600; 44016;
   65296; 66720; 68912; 69734; 69872; 69942; 70096; 70384; 70736; 70864;
   71248; 71360; 71472; 71904; 72016; 72784; 73040; 73120; 92768; 92864;
   93008; 120782; 120792; 120802; 120812; 120822; 123200; 123632; 125264;
   130032]%N.

Fixpoint find_decimal (runs : list N) (c : N) : option N :=
  match runs with
  | [] => None
  | zero :: runs' =>
      if ((zero <=? c) && (c <? zero + 10))%N then Some (c - zero)%N
      else find_decimal runs' c
  end.

(** The rewriting of one code point before the string is read. *)
Definition to_ascii (c : N) : N :=
  if (c <? 127)%N then c
  else if is_space c then 32%N
  else
    match find_decimal decimal_runs c with
    | Some d => (48 + d)%N
    | None => 63%N
    end.

Fixpoint lstrip_ascii (s : str) : str :=
  match s with
  | c :: s' => if is_ascii_space c then lstrip_ascii s' else s
  | [] => []
  end.

Definition strip_ascii (s : str) : str :=
  rev (lstrip_ascii (rev (lstrip_ascii s))).

(** [sys.int_info.default_max_str_digits] *)
Definition int_max_str_digits : nat := 4300.

Definition count_digits (s : str) : nat :=
  length (filter (fun c => ((48 <=? c) && (c <=? 57))%N) s).

Definition py_int (s : str) : option Z :=
  match strip_ascii (map to_ascii s) with
  | c :: ds =>
      let digits := if ((c =? 43) || (c =? 45))%N then ds else c :: ds in
      match parse_digits false 0%Z digits with
      | Some v =>
          if int_max_str_digits <? count_digits digits then None
          else Some (if (c =? 45)%N then (- v)%Z else v)
      | None => None
      end
  | [] => None
  end.

(** ** Outcomes *)

Inductive exn : Type :=
| IndexError
| ValueError
| BackendError (tag : nat).

Inductive outcome (A : Type) : Type :=
| Returned (a : A)
| Raised (e : exn).

Arguments Returned {A} a.
Arguments Raised {A} e.

(** ** Segments and the parser *)

Record Segment : Type := mkSegment {
  id : Z;
  timestamp : str;
  text : str
}.

(** [parse_segment], lines 22-34.  [lines[0]] and [lines[1]] raise
    [IndexError] when the list is too short; [split_lines] never returns
    an empty list, so only [lines[1]] can. *)
Definition parse_segment (block : str) : outcome Segment :=
  match split_lines block with
  | id_str :: timestamp :: rest =>
      let content := join [SPACE] rest in
      let id_num := match py_int id_str with Some n => n | None => 0%Z end in
      Returned (mkSegment id_num timestamp content)
  | _ => Raised IndexError
  end.

(** ** The batcher *)

(** [estimate_tokens], lines 44-46. *)
Definition estimate_tokens (text : str) : Z :=
  (Z.of_nat (length text) / 4 + 1)%Z.

(** The three loop variables of [group_segments_by_token_length]. *)
Record batcher : Type := mkBatcher {
  groups : list (list Segment);
  current_group : list Segment;
  current_group_token_count : Z
}.

Definition batcher_init : batcher := mkBatcher [] [] 0.

(** One iteration of the loop of lines 48-57. *)
Definition batcher_step (max_tokens : Z) (st : batcher) (segment : Segment)
  : batcher :=
  let segment_token_count := estimate_tokens (text segment) in
  if (current_group_token_count st + segment_token_count <=? max_tokens)%Z
  then mkBatcher (groups st)
                 (current_group st ++ [segment])
                 (current_group_token_count st + segment_token_count + 1)
  else mkBatcher (groups st ++ [current_group st])
                 [segment]
                 segment_token_count.

(** Lines 59-62: the last group is appended when it is not empty. *)
Definition batcher_finish (st : batcher) : list (list Segment) :=
  match current_group st with
  | [] => groups st
  | _ :: _ => groups st ++ [current_group st]
  end.

Definition group_segments_by_token_length
  (segments : list Segment) (max_tokens : Z) : list (list Segment) :=
  batcher_finish (fold_left (batcher_step max_tokens) segments batcher_init).

(** ** The world: backend invocations and sleeps *)

(** What has happened so far, oldest first.  An invocation is one
    evaluation of the [try] body of lines 76-88: the request and the
    reading of [response.text], either of which may fail. *)
Inductive event : Type :=
| Invoked (prompt : str) (reply : outcome str)
| Slept (seconds : nat).

Definition world := list event.

Definition is_invocation (e : event) : bool :=
  match e with Invoked _ _ => true | Slept _ => false end.

(** Number of backend invocations recorded in a world. *)
Definition invocations (w : world) : nat :=
  length (filter is_invocation w).

(** The texts the backend has returned, oldest first. *)
Fixpoint returned_texts (w : world) : list str :=
  match w with
  | [] => []
  | Invoked _ (Returned t) :: w' => t :: returned_texts w'
  | _ :: w' => returned_texts w'
  end.

(** Computations that read and extend the world and may raise. *)
Definition M (A : Type) : Type := world -> outcome A * world.

Definition ret {A} (a : A) : M A := fun w => (Returned a, w).

Definition raise {A} (e : exn) : M A := fun w => (Raised e, w).

Definition bind {A B} (m : M A) (k : A -> M B) : M B :=
  fun w =>
    match m w with
    | (Returned a, w') => k a w'
    | (Raised e, w') => (Raised e, w')
    end.

(** [try: m  except Exception as e: h e] *)
Definition try_except {A} (m : M A) (h : exn -> M A) : M A :=
  fun w =>
    match m w with
    | (Returned a, w') => (Returned a, w')
    | (Raised e, w') => h e w'
    end.

Definition lift {A} (o : outcome A) : M A := fun w => (o, w).

Notation "x <- m ;; k" := (bind m (fun x => k))
  (at level 61, m at next level, right associativity).
Notation "m ;;; k" := (bind m (fun _ => k))
  (at level 61, right associativity).

(** [f"{current_index}\n{timestamp}\n{text}\n\n"], line 153. *)
Definition srt_block (current_index : nat) (timestamp text : str) : str :=
  format_nat current_index ++ [LF] ++ timestamp ++ [LF] ++ text ++ [LF; LF].

(** The body of the inner loop, lines 148-154, on the pair
    [(current_index, translated_content)]. *)
Definition reconcile (segments : list Segment) (st : nat * list str)
  (segment : str) : nat * list str :=
  let '(current_index, translated_content) := st in
  if truthy (strip segment) then
    let current_index := current_index + 1 in
    let original_segment :=
      if current_index <=? length segments
      then nth_error segments (current_index - 1)
      else None in
    let timestamp :=
      match original_segment with
      | Some s => timestamp s
      | None => []
      end in
    (current_index,
     translated_content ++ [srt_block current_index timestamp (strip segment)])
  else st.

(** The list comprehension of line 124: blocks are parsed in order and the
    first exception ends the evaluation. *)
Fixpoint parse_all (blocks : list str) : outcome (list Segment) :=
  match blocks with
  | [] => Returned []
  | b :: bs =>
      match parse_segment b with
      | Raised e => Raised e
      | Returned s =>
          match parse_all bs with
          | Raised e => Raised e
          | Returned ss => Returned (s :: ss)
          end
      end
  end.

Definition MAX_TOKENS_IN_SEGMENT : Z := 700.

Section Gateway.

(** The remote model: what the [n]-th invocation (counted from 0) gives
    for a prompt.  The fixed system message of line 80 is part of every
    request and is not passed. *)
Variable backend : nat -> str -> outcome str.

Definition generate_content (prompt : str) : M str :=
  fun w =>
    let reply := backend (invocations w) prompt in
    (reply, w ++ [Invoked prompt reply]).

Definition sleep (seconds : nat) : M unit :=
  fun w => (Returned tt, w ++ [Slept seconds]).

(** [f"Translate this to {language}: {text}"], line 84. *)
Definition user_prompt (text language : str) : str :=
  py "Translate this to " ++ language ++ py ": " ++ text.

(** The [while retries > 0] loop of lines 74-98. *)
Fixpoint retry_loop (retries : nat) (prompt : str) : M str :=
  match retries with
  | O => ret []
  | S retries' =>
      try_except (generate_content prompt)
        (fun e =>
           if 1 <? retries
           then sleep 1 ;;; retry_loop retries' prompt
           else raise e)
  end.

(** [retrieve_translation], lines 65-98.  Configuring the client with the
    key and building the model object have no modelled effect. *)
Definition retrieve_translation (text language api_key : str) : M str :=
  retry_loop 3 (user_prompt text language).

(** The loop over the groups, lines 134-154. *)
Fixpoint translate_groups (segments : list Segment)
  (target_language api_key : str) (groups : list (list Segment))
  (st : nat * list str) : M (nat * list str) :=
  match groups with
  | [] => ret st
  | group :: groups' =>
      let text := join [BAR] (map text group) in
      translated_text <- retrieve_translation text target_language api_key ;;
      if negb (truthy translated_text)
      then translate_groups segments target_language api_key groups' st
      else
        let translated_segments := split_char BAR translated_text in
        translate_groups segments target_language api_key groups'
          (fold_left (reconcile segments) translated_segments st)
  end.

(** [translate_srt_file], lines 101-164, from the value of
    [GEMINI_API_KEY] in the environment and the content of the file. *)
Definition translate_srt_file (env_api_key : option str) (content : str)
  (target_language : str) : M str :=
  match env_api_key with
  | None | Some [] => raise ValueError
  | Some api_key =>
      let raw_segments := split_blocks content in
      segments <-
        lift (parse_all
                (filter (fun seg => truthy (strip seg)) raw_segments)) ;;
      let groups :=
        group_segments_by_token_length segments MAX_TOKENS_IN_SEGMENT in
      st <- translate_groups segments target_language api_key groups
              (0, []) ;;
      ret (concat (snd st))
  end.

End Gateway.

(** ** Measures used to state the batcher's properties *)

(** Sum of the per-segment estimates of a batch. *)
Definition sum_estimates (b : list Segment) : Z :=
  fold_right Z.add 0%Z (map (fun s => estimate_tokens (text s)) b).

(** Combined estimated cost of a batch: the per-segment estimates plus one
    unit for each delimiter between consecutive segments. *)
Definition combined_cost (b : list Segment) : Z :=
  (sum_estimates b + Z.of_nat (length b - 1))%Z.

Definition nonempty (b : list Segment) : Prop := b <> [].

(** For a batch of two or more segments, the estimates plus all but one of
    the delimiters stay within the budget. *)
Definition multi_ok (max_tokens : Z) (b : list Segment) : Prop :=
  2 <= length b ->
  (sum_estimates b + Z.of_nat (length b) - 2 <= max_tokens)%Z.

Record batcher_inv (max_tokens : Z) (st : batcher) : Prop := {
  inv_closed : Forall (multi_ok max_tokens) (groups st);
  inv_open : multi_ok max_tokens (current_group st);
  inv_nonneg : (0 <= current_group_token_count st)%Z;
  inv_count :
    current_group st <> [] ->
    (sum_estimates (current_group st)
     + Z.of_nat (length (current_group st)) - 1
     <= current_group_token_count st)%Z
}.

(** While no group has been closed the running count is exact: the
    estimates of the open group plus one unit per segment, so the test of
    line 51 compares the combined cost of the extended group with the
    budget.  The first closed group keeps the bound it had when open. *)
Record first_group_inv (max_tokens : Z) (st : batcher) : Prop := {
  fg_open :
    groups st = [] ->
    current_group_token_count st
    = (sum_estimates (current_group st)
       + Z.of_nat (length (current_group st)))%Z
    /\ (current_group st <> [] ->
        (combined_cost (current_group st) <= max_tokens)%Z);
  fg_closed :
    forall b rest,
      groups st = b :: rest -> b <> [] ->
      (combined_cost b <= max_tokens)%Z
}.

(** ** The reconciler as the specification words it *)

(** One reconciled output unit. *)
Record OutputUnit : Type := mkUnit {
  out_index : nat;
  out_timestamp : str;
  out_text : str
}.

(** The serializer's rendering of a unit. *)
Definition render (u : OutputUnit) : str :=
  srt_block (out_index u) (out_timestamp u) (out_text u).

(** A fragment is blank when it is empty or holds whitespace only. *)
Definition is_blank (fragment : str) : bool := forallb is_space fragment.

(** Timestamp of the original segment at a 1-based position of the whole
    run's segment list; the empty string past the end. *)
Definition timestamp_at (segments : list Segment) (position : nat) : str :=
  if length segments <? position then []
  else
    match nth_error segments (position - 1) with
    | Some s => timestamp s
    | None => []
    end.

(** The units for a list of fragments, from a running index: a blank
    fragment is skipped and leaves the index alone; any other increments
    it, takes the timestamp at the new index and is trimmed. *)
Fixpoint reconcile_units (segments : list Segment) (running_index : nat)
  (fragments : list str) : list OutputUnit :=
  match fragments with
  | [] => []
  | fragment :: fragments' =>
      if is_blank fragment
      then reconcile_units segments running_index fragments'
      else
        mkUnit (running_index + 1)
               (timestamp_at segments (running_index + 1))
               (strip fragment)
        :: reconcile_units segments (running_index + 1) fragments'
  end.

Definition nonblank_count (fragments : list str) : nat :=
  length (filter (fun f => negb (is_blank f)) fragments).

(** The fragments of all the texts the backend returned in a stretch of
    events, in order. *)
Definition fragments_of (events : world) : list str :=
  concat (map (split_char BAR) (returned_texts events)).

(** ** Backends and inputs used as examples *)

(** A backend that fails twice and then answers, and one that never
    answers. *)
Definition fails_twice (n : nat) (prompt : str) : outcome str :=
  if n <? 2 then Raised (BackendError n) else Returned (py "Hola").

Definition always_fails (n : nat) (prompt : str) : outcome str :=
  Raised (BackendError n).

(** A backend that answers the first batch with spaces only and the
    second one with a translation. *)
Definition blank_then_text (n : nat) (prompt : str) : outcome str :=
  match n with
  | 0 => Returned (py "  ")
  | _ => Returned (py "Monde")
  end.

(** The gateway stub of the end-to-end example. *)
Definition bonjour_monde (n : nat) (prompt : str) : outcome str :=
  Returned (py "Bonjour|Monde").

Definition example_input : str :=
  py "1\n00:00:00,000 --> 00:00:02,000\nHello\n\n2\n00:00:02,000 --> 00:00:04,000\nWorld\n\n".

Definition example_output : str :=
  py "1\n00:00:00,000 --> 00:00:02,000\nBonjour\n\n2\n00:00:02,000 --> 00:00:04,000\nMonde\n\n".

Definition example_segments : list Segment :=
  [mkSegment 1 (py "00:00:00,000 --> 00:00:02,000") (py "Hello");
   mkSegment 2 (py "00:00:02,000 --> 00:00:04,000") (py "World")].

(** ** Further notions for the batcher *)

(** Greedy closing: whenever a batch is followed by another one, the
    first segment of the follower would not have fitted into it. *)
Fixpoint adjacent_overflow (max_tokens : Z) (l : list (list Segment))
  : Prop :=
  match l with
  | [] => True
  | b :: l' =>
      match l' with
      | (s :: _) :: _ => (max_tokens < combined_cost (b ++ [s]))%Z
      | _ => True
      end
      /\ adjacent_overflow max_tokens l'
  end.

Record greedy_inv (max_tokens : Z) (st : batcher) : Prop := {
  gi_initial : current_group st = [] -> groups st = [];
  gi_adjacent : adjacent_overflow max_tokens (groups st ++ [current_group st]);
  gi_count :
    (current_group_token_count st
     <= sum_estimates (current_group st)
        + Z.of_nat (length (current_group st)))%Z
}.

(** ** Further notions for the gateway and the run *)


(** Total time slept. *)
Fixpoint slept (w : world) : nat :=
  match w with
  | [] => 0
  | Slept seconds :: w' => seconds + slept w'
  | Invoked _ _ :: w' => slept w'
  end.

(** The request text of a batch, line 136. *)
Definition batch_text (group : list Segment) : str :=
  join [BAR] (map text group).

(** A backend that answers every request with the text it was asked to
    translate: it drops the instruction in front of the text. *)
Definition echo (target_language : str) (n : nat) (prompt : str)
  : outcome str :=
  Returned (skipn (length (user_prompt [] target_language)) prompt).

(** The units a faithful one-to-one translation of the segments would
    give if it left the texts as they are: indices from 1, each segment's
    own timestamp, its text trimmed. *)
Definition units_of_segments (first_index : nat) (segments : list Segment)
  : list OutputUnit :=
  map (fun ks => mkUnit (fst ks) (timestamp (snd ks)) (strip (text (snd ks))))
    (combine (seq first_index (length segments)) segments).

(** ** The command line: where the result is written

    Lines 175-179.  [os.path.splitext] is modelled as its POSIX version:
    the separator is the slash, and a name made of leading dots only has
    no extension. *)

Definition DOT : N := 46.
Definition SLASH : N := 47.

(** [s.rfind(c)], with [None] for -1: the last index seen so far is kept
    while going through the string. *)
Fixpoint rfind_from (c : N) (s : str) (i : nat) (found : option nat)
  : option nat :=
  match s with
  | [] => found
  | x :: s' => rfind_from c s' (S i) (if (x =? c)%N then Some i else found)
  end.

Definition rfind (c : N) (s : str) : option nat := rfind_from c s 0 None.

(** The loop that skips the leading dots of the file name: [true] when a
    character other than a dot stands at one of the [steps] indices
    starting at [i]. *)
Fixpoint name_before_dot (path : str) (i steps : nat) : bool :=
  match steps with
  | O => false
  | S steps' =>
      if negb (nth i path DOT =? DOT)%N then true
      else name_before_dot path (S i) steps'
  end.

Definition splitext (path : str) : str * str :=
  match rfind DOT path with
  | None => (path, [])
  | Some dotIndex =>
      let filenameIndex :=
        match rfind SLASH path with
        | None => 0
        | Some sepIndex => S sepIndex
        end in
      if (filenameIndex <=? dotIndex)
         && name_before_dot path filenameIndex (dotIndex - filenameIndex)
      then (firstn dotIndex path, skipn dotIndex path)
      else (path, [])
  end.

(** [f"{base}.{args.language}{ext}"], line 179. *)
Definition default_output_path (file language : str) : str :=
  let (base, ext) := splitext file in
  base ++ [DOT] ++ language ++ ext.

(** Lines 175-179: the path given with [-o] unless it is absent or
    empty. *)
Definition chosen_output_path (file language : str) (output : option str)
  : str :=
  match output with
  | Some (c :: o) => c :: o
  | _ => default_output_path file language
  end.

(** ** Reading the output back *)

(** The segment a unit is read back as. *)
Definition segment_of_unit (u : OutputUnit) : Segment :=
  mkSegment (Z.of_nat (out_index u)) (out_timestamp u) (out_text u).

(** The segment the parser makes of the block of a unit: the index is
    what [int] reads from the written index. *)
Definition read_back (u : OutputUnit) : Segment :=
  mkSegment
    (match py_int (format_nat (out_index u)) with
     | Some n => n
     | None => 0%Z
     end)
    (out_timestamp u) (out_text u).

(** No carriage return and no line feed. *)
Definition plain (s : str) : bool :=
  forallb (fun c => negb (c =? CR)%N && negb (c =? LF)%N) s.

(** A unit whose timestamp and text are non-empty single lines. *)
Definition single_line_unit (u : OutputUnit) : bool :=
  truthy (out_timestamp u) && truthy (out_text u)
  && plain (out_timestamp u) && plain (out_text u).

(** A block inside which [split_blocks] finds no separator, and which
    does not end with a line feed: no CR, no two line feeds in a row. *)
Fixpoint tight (b : str) : Prop :=
  match b with
  | [] => True
  | c :: b' =>
      c <> CR
      /\ match b' with
         | [] => c <> LF
         | d :: _ => ~ (c = LF /\ d = LF)
         end
      /\ tight b'
  end.

(** The block of a unit, without the blank line that ends it. *)
Definition unit_block (u : OutputUnit) : str :=
  format_nat (out_index u) ++ [LF] ++ out_timestamp u ++ [LF] ++ out_text u.

(** Three short segments, with estimates 3, 2 and 2. *)
Definition seg_a : Segment :=
  mkSegment 1 (py "00:00:00,000 --> 00:00:01,000") (py "abcdefgh").

Definition seg_b : Segment :=
  mkSegment 2 (py "00:00:01,000 --> 00:00:02,000") (py "ijkl").

Definition seg_c : Segment :=
  mkSegment 3 (py "00:00:02,000 --> 00:00:03,000") (py "mnop").

Definition three_segments : list Segment := [seg_a; seg_b; seg_c].

(** A backend whose answer has blanks around the fragments and an empty
    fragment at the end. *)
Definition padded_answer (n : nat) (prompt : str) : outcome str :=
  Returned (py "  Bonjour | Monde\t|").

(** ** The reconciler's result, in the words of the specification *)

(** The rendering "{index}\n{timestamp}\n{text}\n\n" of a unit, written
    out. *)
Definition unit_lines (u : OutputUnit) : str :=
  format_nat (out_index u) ++ [LF] ++ out_timestamp u ++ [LF]
  ++ out_text u ++ [LF; LF].

(** [fragments] are what splitting [text] on the separator gives: joined
    by the separator they are the text again, and none of them holds the
    separator. *)
Definition is_split_of (sep : N) (text : str) (fragments : list str)
  : Prop :=
  fragments <> []
  /\ join [sep] fragments = text
  /\ Forall (fun f => ~ In sep f) fragments.

(** [text] is [fragment] without the whitespace around it. *)
Definition is_trimmed_of (fragment text : str) : Prop :=
  exists lead trail,
    fragment = lead ++ text ++ trail
    /\ is_blank lead = true
    /\ is_blank trail = true
    /\ match text with
       | [] => True
       | c :: _ => is_space c = false /\ is_space (last text c) = false
       end.

(** * Properties of the batcher *)

Lemma estimate_tokens_pos (t : str) : (1 <= estimate_tokens t)%Z.
Proof.
  unfold estimate_tokens.
  assert (0 <= Z.of_nat (length t) / 4)%Z by (apply Z.div_pos; lia).
  lia.
Qed.

Lemma sum_estimates_app (a b : list Segment) :
  sum_estimates (a ++ b) = (sum_estimates a + sum_estimates b)%Z.
Proof.
  unfold sum_estimates. induction a as [|s a IH]; simpl; [reflexivity|].
  rewrite IH. lia.
Qed.

Lemma sum_estimates_lower (b : list Segment) :
  (Z.of_nat (length b) <= sum_estimates b)%Z.
Proof.
  unfold sum_estimates. induction b as [|s b IH]; simpl length; simpl map;
    simpl fold_right; [lia|].
  pose proof (estimate_tokens_pos (text s)). lia.
Qed.

Lemma sum_estimates_member (b : list Segment) (s : Segment) :
  In s b -> (estimate_tokens (text s) <= sum_estimates b)%Z.
Proof.
  unfold sum_estimates. induction b as [|x b IH]; simpl; [tauto|].
  intros [->|Hin].
  - pose proof (sum_estimates_lower b). unfold sum_estimates in *. lia.
  - specialize (IH Hin). pose proof (estimate_tokens_pos (text x)). lia.
Qed.

Lemma batcher_finish_concat (st : batcher) :
  concat (batcher_finish st) = concat (groups st) ++ current_group st.
Proof.
  unfold batcher_finish. destruct (current_group st) as [|s cur].
  - now rewrite app_nil_r.
  - rewrite concat_app. simpl. now rewrite app_nil_r.
Qed.

(** The segments seen so far are the closed groups followed by the open
    one; a step keeps that. *)
Lemma batcher_step_concat (max_tokens : Z) (st : batcher) (s : Segment) :
  let st' := batcher_step max_tokens st s in
  concat (groups st') ++ current_group st'
  = (concat (groups st) ++ current_group st) ++ [s].
Proof.
  unfold batcher_step.
  destruct (_ <=? _)%Z; simpl.
  - now rewrite app_assoc.
  - rewrite concat_app. simpl. now rewrite app_nil_r.
Qed.

Lemma batcher_fold_concat (max_tokens : Z) (segments : list Segment) :
  forall st,
    let st' := fold_left (batcher_step max_tokens) segments st in
    concat (groups st') ++ current_group st'
    = (concat (groups st) ++ current_group st) ++ segments.
Proof.
  induction segments as [|s segments IH]; intros st; simpl.
  - now rewrite app_nil_r.
  - rewrite IH, batcher_step_concat, <- app_assoc. reflexivity.
Qed.

Lemma group_segments_concat (segments : list Segment) (max_tokens : Z) :
  concat (group_segments_by_token_length segments max_tokens) = segments.
Proof.
  unfold group_segments_by_token_length.
  rewrite batcher_finish_concat, batcher_fold_concat. reflexivity.
Qed.

Lemma length_concat_sum {A} (l : list (list A)) :
  length (concat l) = list_sum (map (@length A) l).
Proof.
  induction l as [|x l IH]; simpl; [reflexivity|].
  now rewrite length_app, IH.
Qed.

(** C2. Batcher completeness: for every segment sequence and every budget
    (in particular every budget of at least 1), the batches of
    [group_segments_by_token_length], concatenated in order, are exactly
    the input sequence; the batch sizes add up to the number of segments,
    so no segment is lost, duplicated or reordered. *)
Theorem batcher_completeness (segments : list Segment) (max_tokens : Z) :
  let batches := group_segments_by_token_length segments max_tokens in
  concat batches = segments
  /\ list_sum (map (@length Segment) batches) = length segments.
Proof.
  cbv zeta. split.
  - apply group_segments_concat.
  - rewrite <- length_concat_sum. now rewrite group_segments_concat.
Qed.

(** ** Which batches can be empty *)

(** Once the open group holds a segment, every group closed from then on
    and the last one are non-empty. *)
Lemma batcher_fold_shape (max_tokens : Z) (segments : list Segment) :
  forall st,
    current_group st <> [] ->
    exists more,
      batcher_finish (fold_left (batcher_step max_tokens) segments st)
      = groups st ++ more
      /\ Forall nonempty more.
Proof.
  induction segments as [|s segments IH]; intros st Hcur; simpl.
  - exists [current_group st]. unfold batcher_finish.
    destruct (current_group st) as [|x cur] eqn:E; [congruence|].
    split; [reflexivity|]. repeat constructor. unfold nonempty. congruence.
  - unfold batcher_step at 2.
    destruct (_ <=? _)%Z.
    + destruct (IH (mkBatcher (groups st) (current_group st ++ [s])
                      (current_group_token_count st
                       + estimate_tokens (text s) + 1))) as (more & E & F).
      { simpl. destruct (current_group st); discriminate. }
      exists more. now split.
    + destruct (IH (mkBatcher (groups st ++ [current_group st]) [s]
                      (estimate_tokens (text s)))) as (more & E & F).
      { simpl. discriminate. }
      exists (current_group st :: more). simpl in E.
      rewrite E, <- app_assoc. split; [reflexivity|].
      constructor; assumption.
Qed.

(** When the first segment fits the budget, every batch is non-empty. *)
Lemma batches_nonempty_when_first_fits
  (s : Segment) (rest : list Segment) (max_tokens : Z) :
  (estimate_tokens (text s) <= max_tokens)%Z ->
  Forall nonempty (group_segments_by_token_length (s :: rest) max_tokens).
Proof.
  intros Hfit. unfold group_segments_by_token_length. simpl.
  unfold batcher_step at 2. simpl.
  destruct (Z.leb_spec (estimate_tokens (text s)) max_tokens) as [_|Hlt];
    [|lia].
  destruct (batcher_fold_shape max_tokens rest
              (mkBatcher [] [s] (estimate_tokens (text s) + 1)))
    as (more & E & F); [simpl; discriminate|].
  rewrite E. exact F.
Qed.

(** When the first segment alone exceeds the budget, the group that is
    closed to make room for it is the still empty initial one: the first
    batch is empty and all later ones are not. *)
Lemma first_batch_empty_when_oversized
  (s : Segment) (rest : list Segment) (max_tokens : Z) :
  (max_tokens < estimate_tokens (text s))%Z ->
  exists more,
    group_segments_by_token_length (s :: rest) max_tokens = [] :: more
    /\ Forall nonempty more.
Proof.
  intros Hover. unfold group_segments_by_token_length. simpl.
  unfold batcher_step at 2. simpl.
  destruct (Z.leb_spec (estimate_tokens (text s)) max_tokens) as [Hle|_];
    [lia|].
  destruct (batcher_fold_shape max_tokens rest
              (mkBatcher [[]] [s] (estimate_tokens (text s))))
    as (more & E & F); [simpl; discriminate|].
  exists more. now split.
Qed.

(** The last group is emitted whenever it holds a segment. *)
Lemma batcher_finish_emits_last (st : batcher) :
  current_group st <> [] ->
  batcher_finish st = groups st ++ [current_group st].
Proof.
  unfold batcher_finish. destruct (current_group st); congruence.
Qed.

(** ** What the running count bounds *)

Lemma batcher_inv_init (max_tokens : Z) : batcher_inv max_tokens batcher_init.
Proof.
  split; simpl.
  - constructor.
  - unfold multi_ok. simpl. lia.
  - lia.
  - congruence.
Qed.

Lemma batcher_inv_step (max_tokens : Z) (st : batcher) (s : Segment) :
  batcher_inv max_tokens st ->
  batcher_inv max_tokens (batcher_step max_tokens st s).
Proof.
  intros [Hc Ho H0 Hn]. unfold batcher_step.
  pose proof (estimate_tokens_pos (text s)) as Hs.
  assert (Hone : sum_estimates [s] = estimate_tokens (text s))
    by (unfold sum_estimates; simpl; lia).
  destruct (Z.leb_spec (current_group_token_count st
                        + estimate_tokens (text s)) max_tokens) as [Hle|Hgt].
  - split; simpl.
    + exact Hc.
    + unfold multi_ok. rewrite length_app, sum_estimates_app, Hone.
      simpl length. intros Hlen.
      assert (Hne : current_group st <> [])
        by (destruct (current_group st); simpl in *; [lia|discriminate]).
      specialize (Hn Hne). lia.
    + lia.
    + intros _. rewrite length_app, sum_estimates_app, Hone. simpl length.
      destruct (current_group st) as [|x cur] eqn:E.
      * unfold sum_estimates. simpl. lia.
      * assert (Hne : x :: cur <> []) by discriminate.
        specialize (Hn Hne). lia.
  - split; simpl.
    + apply Forall_app. split; [exact Hc|]. constructor; [exact Ho|constructor].
    + unfold multi_ok. simpl. lia.
    + lia.
    + intros _. rewrite Hone. lia.
Qed.

Lemma batcher_inv_fold (max_tokens : Z) (segments : list Segment) :
  forall st,
    batcher_inv max_tokens st ->
    batcher_inv max_tokens (fold_left (batcher_step max_tokens) segments st).
Proof.
  induction segments as [|s segments IH]; intros st Hinv; simpl.
  - exact Hinv.
  - apply IH, batcher_inv_step, Hinv.
Qed.

Lemma batches_multi_ok (segments : list Segment) (max_tokens : Z) :
  Forall (multi_ok max_tokens)
    (group_segments_by_token_length segments max_tokens).
Proof.
  unfold group_segments_by_token_length.
  destruct (batcher_inv_fold max_tokens segments _ (batcher_inv_init max_tokens))
    as [Hc Ho _ _].
  unfold batcher_finish.
  destruct (current_group _) as [|x cur] eqn:E; [exact Hc|].
  apply Forall_app. split; [exact Hc|]. constructor; [|constructor].
  exact Ho.
Qed.

(** In a batch of two or more segments the per-segment estimates alone add
    up to at most the budget, and the combined cost to at most one more. *)
Lemma multi_segment_batch_bounds
  (segments : list Segment) (max_tokens : Z) (b : list Segment) :
  In b (group_segments_by_token_length segments max_tokens) ->
  2 <= length b ->
  (sum_estimates b <= max_tokens)%Z
  /\ (combined_cost b <= max_tokens + 1)%Z.
Proof.
  intros Hin Hlen.
  pose proof (batches_multi_ok segments max_tokens) as Hall.
  rewrite Forall_forall in Hall. specialize (Hall b Hin Hlen).
  unfold combined_cost. split; lia.
Qed.

(** A segment whose own estimate exceeds the budget is never dropped and
    never shares a batch: it sits in a batch, and any batch holding it is
    that segment alone. *)
Lemma oversized_segment_alone
  (segments : list Segment) (max_tokens : Z) (s : Segment) :
  In s segments ->
  (max_tokens < estimate_tokens (text s))%Z ->
  (exists b, In b (group_segments_by_token_length segments max_tokens)
             /\ In s b)
  /\ (forall b, In b (group_segments_by_token_length segments max_tokens) ->
                In s b -> b = [s]).
Proof.
  intros Hin Hover. split.
  - rewrite <- (group_segments_concat segments max_tokens) in Hin.
    apply in_concat in Hin. destruct Hin as (b & Hb & Hs). now exists b.
  - intros b Hb Hs.
    destruct b as [|x [|y b]].
    + destruct Hs.
    + destruct Hs as [->|[]]. reflexivity.
    + exfalso.
      destruct (multi_segment_batch_bounds segments max_tokens _ Hb) as [Hsum _].
      { simpl. lia. }
      pose proof (sum_estimates_member _ _ Hs). lia.
Qed.

Lemma first_group_inv_step (max_tokens : Z) (st : batcher) (s : Segment) :
  first_group_inv max_tokens st ->
  first_group_inv max_tokens (batcher_step max_tokens st s).
Proof.
  intros [Ho Hc]. unfold batcher_step.
  assert (Hone : sum_estimates [s] = estimate_tokens (text s))
    by (unfold sum_estimates; simpl; lia).
  destruct (Z.leb_spec (current_group_token_count st
                        + estimate_tokens (text s)) max_tokens) as [Hle|Hgt].
  - split; simpl.
    + intros Hg. destruct (Ho Hg) as [Hcnt _].
      unfold combined_cost.
      rewrite length_app, sum_estimates_app, Hone. simpl length.
      split; [lia|]. intros _. lia.
    + exact Hc.
  - split; simpl.
    + intros Hg. destruct (groups st); discriminate.
    + intros b rest Hg Hb.
      destruct (groups st) as [|b0 r] eqn:G.
      * simpl in Hg. injection Hg as <- <-.
        destruct (Ho eq_refl) as [_ Hcur]. now apply Hcur.
      * simpl in Hg. injection Hg as <- <-. apply (Hc b0 r eq_refl Hb).
Qed.

Lemma first_group_inv_fold (max_tokens : Z) (segments : list Segment) :
  forall st,
    first_group_inv max_tokens st ->
    first_group_inv max_tokens
      (fold_left (batcher_step max_tokens) segments st).
Proof.
  induction segments as [|s segments IH]; intros st Hinv; simpl.
  - exact Hinv.
  - apply IH, first_group_inv_step, Hinv.
Qed.

(** The first batch, built with the exact running count, does stay within
    the budget with its delimiters counted. *)
Lemma first_batch_within_budget
  (segments : list Segment) (max_tokens : Z)
  (b : list Segment) (rest : list (list Segment)) :
  group_segments_by_token_length segments max_tokens = b :: rest ->
  b <> [] ->
  (combined_cost b <= max_tokens)%Z.
Proof.
  unfold group_segments_by_token_length, batcher_finish.
  assert (Hinit : first_group_inv max_tokens batcher_init).
  { split; simpl.
    - intros _. split; [reflexivity|congruence].
    - discriminate. }
  destruct (first_group_inv_fold max_tokens segments _ Hinit) as [Ho Hc].
  destruct (current_group _) as [|x cur] eqn:E.
  - intros Hg Hb. apply (Hc b rest Hg Hb).
  - destruct (groups _) as [|b0 r] eqn:G.
    + simpl. intros [= <- <-] _. destruct (Ho eq_refl) as [_ Hcur].
      apply Hcur. discriminate.
    + simpl. intros [= <- <-] Hb. apply (Hc b0 r eq_refl Hb).
Qed.

(** C8. Batch non-emptiness does not hold of the code.  A subtitle file
    whose first entry carries 2800 characters of text has an estimate of
    701 for that entry; with the budget of 700 the loop closes the still
    empty initial group to make room for it, so the first batch is empty.
    The same happens for a five-character text and a budget of 1.  (The
    last group is guarded at line 59; the group closed at line 55 is not.) *)
Theorem batcher_emits_empty_batch :
  let long := mkSegment 1 (py "00:00:00,000 --> 00:00:02,000")
                (repeat 97%N 2800) in
  let short := mkSegment 1 (py "00:00:00,000 --> 00:00:02,000")
                 (py "Hello") in
  group_segments_by_token_length [long] MAX_TOKENS_IN_SEGMENT
  = [[]; [long]]
  /\ group_segments_by_token_length [short] 1 = [[]; [short]].
Proof.
  cbv zeta. split; vm_compute; reflexivity.
Qed.

(** C3. Budget respect, with the delimiter overhead counted, does not hold
    of the code.  With the budget of 700 and texts of 2792, 1396 and 1396
    characters (estimates 699, 350 and 350), the second batch holds the
    last two segments: its estimates add up to 700 and the delimiter
    between them brings the combined cost to 701.  A group started at line
    56-57 is seeded with the bare estimate, without the delimiter unit that
    line 53 adds for every segment of the first group. *)
Theorem batcher_exceeds_budget :
  let ts := py "00:00:00,000 --> 00:00:02,000" in
  let s1 := mkSegment 1 ts (repeat 97%N 2792) in
  let s2 := mkSegment 2 ts (repeat 98%N 1396) in
  let s3 := mkSegment 3 ts (repeat 99%N 1396) in
  group_segments_by_token_length [s1; s2; s3] MAX_TOKENS_IN_SEGMENT
  = [[s1]; [s2; s3]]
  /\ combined_cost [s2; s3] = 701%Z
  /\ (MAX_TOKENS_IN_SEGMENT < combined_cost [s2; s3])%Z.
Proof.
  cbv zeta. split; [|split]; vm_compute; reflexivity.
Qed.

(** * Properties of the parser *)

Lemma push_char_cons (c : N) (pieces : list str) :
  exists p ps, push_char c pieces = (c :: p) :: ps.
Proof.
  destruct pieces as [|p ps]; simpl; eauto.
Qed.

Lemma split_lines_step (c : N) (s : str) :
  split_lines (c :: s)
  = if (c =? LF)%N then [] :: split_lines s
    else
      match s with
      | d :: s' =>
          if (c =? CR)%N && (d =? LF)%N then [] :: split_lines s'
          else push_char c (split_lines s)
      | [] => push_char c (split_lines s)
      end.
Proof. reflexivity. Qed.

Lemma split_lines_cons (s : str) :
  exists p ps, split_lines s = p :: ps.
Proof.
  destruct s as [|c s]; [simpl; eauto|].
  rewrite split_lines_step.
  destruct (c =? LF)%N; [eauto|].
  destruct (push_char_cons c (split_lines s)) as (p & ps & E).
  destruct s as [|d s']; [rewrite E; eauto|].
  destruct ((c =? CR)%N && (d =? LF)%N); [eauto|].
  rewrite E. eauto.
Qed.

(** A block without a line feed is a single line. *)
Lemma split_lines_single (s : str) :
  ~ In LF s -> split_lines s = [s].
Proof.
  induction s as [|c s IH]; intros Hno; [reflexivity|].
  assert (Hc : (c =? LF)%N = false)
    by (apply N.eqb_neq; intros ->; apply Hno; now left).
  assert (Hs : ~ In LF s) by (intros H; apply Hno; now right).
  specialize (IH Hs). rewrite split_lines_step, Hc, IH.
  destruct s as [|d s']; [reflexivity|].
  assert (Hd : (d =? LF)%N = false)
    by (apply N.eqb_neq; intros ->; apply Hs; now left).
  rewrite Hd, andb_false_r. reflexivity.
Qed.

(** A block with a line feed has at least two lines. *)
Lemma split_lines_two (s : str) :
  In LF s -> exists a b rest, split_lines s = a :: b :: rest.
Proof.
  induction s as [|c s IH]; intros Hin; [destruct Hin|].
  rewrite split_lines_step.
  destruct (N.eqb_spec c LF) as [->|Hc].
  - destruct (split_lines_cons s) as (p & ps & E). rewrite E. eauto.
  - destruct Hin as [Heq|Hin]; [congruence|].
    destruct (IH Hin) as (a & b & rest & E).
    destruct s as [|d s']; [destruct Hin|].
    destruct ((c =? CR)%N && (d =? LF)%N).
    + destruct (split_lines_cons s') as (p & ps & E'). rewrite E'. eauto.
    + rewrite E. simpl. eauto.
Qed.

(** [parse_segment] raises exactly on the blocks that have no second
    line. *)
Lemma parse_segment_raises_iff (block : str) :
  parse_segment block = Raised IndexError <-> ~ In LF block.
Proof.
  unfold parse_segment. split.
  - intros Hraise Hin.
    destruct (split_lines_two block Hin) as (a & b & rest & E).
    rewrite E in Hraise. discriminate.
  - intros Hno. now rewrite (split_lines_single block Hno).
Qed.

(** On a block with at least two lines the parser returns a segment: the
    index is that of the first line, or 0 when [int] rejects it, the
    second line is the timestamp as it stands, and the remaining lines
    joined by single spaces are the text. *)
Lemma parse_segment_returns (block : str) :
  In LF block ->
  exists id_str ts rest,
    split_lines block = id_str :: ts :: rest
    /\ parse_segment block
       = Returned (mkSegment
                     (match py_int id_str with Some n => n | None => 0%Z end)
                     ts (join [SPACE] rest)).
Proof.
  intros Hin. destruct (split_lines_two block Hin) as (a & b & rest & E).
  exists a, b, rest. split; [exact E|].
  unfold parse_segment. now rewrite E.
Qed.

(** C4. Totality of the parser does not hold of the code.  The block
    consisting of the single line "1" is neither empty nor whitespace, so
    line 124 hands it to [parse_segment]; it has no second line, and
    [lines[1]] raises [IndexError].  A file with that content makes the
    whole run raise before any translation is requested. *)
Theorem parse_segment_single_line_raises :
  truthy (strip (py "1")) = true
  /\ split_lines (py "1") = [py "1"]
  /\ parse_segment (py "1") = Raised IndexError
  /\ forall backend w,
       translate_srt_file backend (Some (py "key")) (py "1") (py "French") w
       = (Raised IndexError, w).
Proof.
  split; [|split; [|split]]; intros; vm_compute; reflexivity.
Qed.

(** * Properties of the gateway *)

Lemma invocations_app (w1 w2 : world) :
  invocations (w1 ++ w2) = invocations w1 + invocations w2.
Proof.
  unfold invocations. now rewrite filter_app, length_app.
Qed.

Lemma returned_texts_app (w1 w2 : world) :
  returned_texts (w1 ++ w2) = returned_texts w1 ++ returned_texts w2.
Proof.
  induction w1 as [|e w1 IH]; simpl; [reflexivity|].
  destruct e as [p [t|x]|n]; simpl; now rewrite IH.
Qed.

(** One pass through the loop body, by what the invocation gives. *)
Lemma retry_loop_answer
  (backend : nat -> str -> outcome str) (r : nat) (p t : str) (w : world) :
  backend (invocations w) p = Returned t ->
  retry_loop backend (S r) p w = (Returned t, w ++ [Invoked p (Returned t)]).
Proof.
  intros H. cbn [retry_loop]. unfold try_except, generate_content.
  now rewrite H.
Qed.

Lemma retry_loop_again
  (backend : nat -> str -> outcome str) (r : nat) (p : str) (e : exn)
  (w : world) :
  backend (invocations w) p = Raised e ->
  retry_loop backend (S (S r)) p w
  = retry_loop backend (S r) p (w ++ [Invoked p (Raised e); Slept 1]).
Proof.
  intros H. cbn [retry_loop]. unfold try_except at 1, generate_content at 1.
  rewrite H. cbn [Nat.ltb Nat.leb]. unfold bind, sleep.
  rewrite <- app_assoc. reflexivity.
Qed.

Lemma retry_loop_give_up
  (backend : nat -> str -> outcome str) (p : str) (e : exn) (w : world) :
  backend (invocations w) p = Raised e ->
  retry_loop backend 1 p w = (Raised e, w ++ [Invoked p (Raised e)]).
Proof.
  intros H. cbn [retry_loop]. unfold try_except, generate_content.
  rewrite H. reflexivity.
Qed.

Lemma retry_loop_last
  (backend : nat -> str -> outcome str) (p : str) (w : world) :
  retry_loop backend 1 p w
  = (backend (invocations w) p,
     w ++ [Invoked p (backend (invocations w) p)]).
Proof.
  destruct (backend (invocations w) p) as [t|e] eqn:E.
  - now apply retry_loop_answer.
  - now apply retry_loop_give_up.
Qed.

(** C6. Gateway retry: when the backend fails on the first two invocations
    of a call, [retrieve_translation] sleeps one unit after each failure
    and invokes it a third time; whatever the third invocation gives is
    the outcome of the call.  So a success on the third invocation is
    returned, a third failure (a backend that always fails) is re-raised,
    and in both cases the backend has been invoked exactly three times. *)
Theorem retrieve_translation_retries
  (backend : nat -> str -> outcome str) (text language api_key : str)
  (w : world) (e1 e2 : exn) (third : outcome str) :
  let prompt := user_prompt text language in
  let n := invocations w in
  backend n prompt = Raised e1 ->
  backend (n + 1) prompt = Raised e2 ->
  backend (n + 2) prompt = third ->
  let w' := w ++ [Invoked prompt (Raised e1); Slept 1;
                  Invoked prompt (Raised e2); Slept 1;
                  Invoked prompt third] in
  retrieve_translation backend text language api_key w = (third, w')
  /\ invocations w' = n + 3.
Proof.
  intros prompt n H1 H2 H3 w'. split.
  - unfold retrieve_translation. fold prompt.
    rewrite (retry_loop_again backend 1 prompt e1 w H1).
    rewrite (retry_loop_again backend 0 prompt e2).
    + rewrite retry_loop_last, !invocations_app.
      change (invocations [Invoked prompt (Raised e1); Slept 1]) with 1.
      change (invocations [Invoked prompt (Raised e2); Slept 1]) with 1.
      fold n. replace (n + 1 + 1) with (n + 2) by lia. rewrite H3.
      unfold w'. rewrite <- !app_assoc. reflexivity.
    + rewrite invocations_app. exact H2.
  - unfold w'. rewrite invocations_app. reflexivity.
Qed.

Lemma retrieve_translation_retries_witness :
  let prompt := user_prompt (py "Hello") (py "Spanish") in
  let first_two := [Invoked prompt (Raised (BackendError 0)); Slept 1;
                    Invoked prompt (Raised (BackendError 1)); Slept 1] in
  (fails_twice 0 prompt = Raised (BackendError 0)
   /\ fails_twice 1 prompt = Raised (BackendError 1)
   /\ fails_twice 2 prompt = Returned (py "Hola")
   /\ retrieve_translation fails_twice (py "Hello") (py "Spanish") (py "key")
        []
      = (Returned (py "Hola"),
         first_two ++ [Invoked prompt (Returned (py "Hola"))])
   /\ invocations (first_two ++ [Invoked prompt (Returned (py "Hola"))]) = 3)
  /\ (always_fails 0 prompt = Raised (BackendError 0)
      /\ always_fails 1 prompt = Raised (BackendError 1)
      /\ always_fails 2 prompt = Raised (BackendError 2)
      /\ retrieve_translation always_fails (py "Hello") (py "Spanish")
           (py "key") []
         = (Raised (BackendError 2),
            first_two ++ [Invoked prompt (Raised (BackendError 2))])
      /\ invocations (first_two ++ [Invoked prompt (Raised (BackendError 2))])
         = 3).
Proof.
  intros prompt first_two.
  split; (split; [reflexivity|split; [reflexivity|split; [reflexivity|]]]).
  - exact (retrieve_translation_retries fails_twice (py "Hello")
             (py "Spanish") (py "key") [] (BackendError 0) (BackendError 1)
             (Returned (py "Hola")) eq_refl eq_refl eq_refl).
  - exact (retrieve_translation_retries always_fails (py "Hello")
             (py "Spanish") (py "key") [] (BackendError 0) (BackendError 1)
             (Raised (BackendError 2)) eq_refl eq_refl eq_refl).
Defined.

(** * Properties of the reconciler *)

Lemma lstrip_blank (s : str) : is_blank s = true -> lstrip s = [].
Proof.
  unfold is_blank. induction s as [|c s IH]; simpl; [reflexivity|].
  destruct (is_space c); simpl; [exact IH|discriminate].
Qed.

Lemma lstrip_not_blank (s : str) :
  is_blank s = false ->
  exists c s', lstrip s = c :: s' /\ is_space c = false.
Proof.
  unfold is_blank. induction s as [|c s IH]; simpl; [discriminate|].
  destruct (is_space c) eqn:E; simpl.
  - exact IH.
  - intros _. eauto.
Qed.

Lemma is_blank_rev (s : str) : is_blank (rev s) = is_blank s.
Proof.
  unfold is_blank. induction s as [|c s IH]; simpl; [reflexivity|].
  rewrite forallb_app, IH. simpl. rewrite andb_true_r. apply andb_comm.
Qed.

(** [strip] leaves nothing exactly of the blank strings. *)
Lemma truthy_strip (s : str) : truthy (strip s) = negb (is_blank s).
Proof.
  unfold strip, rstrip.
  destruct (is_blank s) eqn:B.
  - now rewrite (lstrip_blank s B).
  - destruct (lstrip_not_blank s B) as (c & s' & E & Hc). rewrite E.
    assert (Hb : is_blank (rev (c :: s')) = false).
    { rewrite is_blank_rev. unfold is_blank. simpl. now rewrite Hc. }
    destruct (lstrip_not_blank _ Hb) as (d & t & E' & _). rewrite E'.
    simpl. destruct (rev t); reflexivity.
Qed.

Lemma strip_nil_iff (s : str) : strip s = [] <-> is_blank s = true.
Proof.
  pose proof (truthy_strip s) as H. split; intros E.
  - rewrite E in H. simpl in H. now destruct (is_blank s).
  - rewrite E in H. simpl in H. now destruct (strip s).
Qed.

(** Line 150 reads the segment at the 1-based running index. *)
Lemma lookup_is_timestamp_at (segments : list Segment) (current_index : nat) :
  match (if current_index <=? length segments
         then nth_error segments (current_index - 1)
         else None) with
  | Some s => timestamp s
  | None => []
  end = timestamp_at segments current_index.
Proof.
  unfold timestamp_at.
  destruct (Nat.leb_spec current_index (length segments)) as [Hle|Hgt];
    destruct (Nat.ltb_spec (length segments) current_index) as [Hlt|Hge];
    try lia; reflexivity.
Qed.

Lemma reconcile_fragment (segments : list Segment) (current_index : nat)
  (translated_content : list str) (fragment : str) :
  reconcile segments (current_index, translated_content) fragment
  = if is_blank fragment then (current_index, translated_content)
    else (current_index + 1,
          translated_content
          ++ [render (mkUnit (current_index + 1)
                        (timestamp_at segments (current_index + 1))
                        (strip fragment))]).
Proof.
  unfold reconcile. rewrite truthy_strip.
  destruct (is_blank fragment); simpl; [reflexivity|].
  unfold render. simpl. now rewrite lookup_is_timestamp_at.
Qed.

Lemma fold_reconcile (segments : list Segment) (fragments : list str) :
  forall current_index translated_content,
    fold_left (reconcile segments) fragments
      (current_index, translated_content)
    = (current_index + nonblank_count fragments,
       translated_content
       ++ map render (reconcile_units segments current_index fragments)).
Proof.
  unfold nonblank_count.
  induction fragments as [|f fragments IH]; intros idx acc;
    cbn [fold_left filter reconcile_units].
  - simpl. now rewrite Nat.add_0_r, app_nil_r.
  - rewrite reconcile_fragment. destruct (is_blank f); cbn [negb].
    + apply IH.
    + rewrite IH, <- app_assoc. simpl. f_equal. lia.
Qed.

Lemma reconcile_units_indices (segments : list Segment)
  (fragments : list str) :
  forall running_index,
    map out_index (reconcile_units segments running_index fragments)
    = seq (running_index + 1) (nonblank_count fragments).
Proof.
  unfold nonblank_count.
  induction fragments as [|f fragments IH]; intros idx; simpl;
    [reflexivity|].
  destruct (is_blank f); simpl.
  - apply IH.
  - rewrite IH. do 2 f_equal. lia.
Qed.

Lemma reconcile_units_length (segments : list Segment)
  (fragments : list str) (running_index : nat) :
  length (reconcile_units segments running_index fragments)
  = nonblank_count fragments.
Proof.
  rewrite <- (length_map out_index), reconcile_units_indices.
  apply length_seq.
Qed.

(** One fragment, and the loop over the fragments of one translated
    text: a blank fragment leaves the running index and the output alone;
    any other increments the index and emits the block of that index, the
    timestamp at that position of the segment list and the trimmed
    fragment. *)
Lemma reconcile_loop_semantics
  (segments : list Segment) (current_index : nat)
  (translated_content : list str) :
  (forall fragment,
     reconcile segments (current_index, translated_content) fragment
     = if is_blank fragment then (current_index, translated_content)
       else (current_index + 1,
             translated_content
             ++ [srt_block (current_index + 1)
                   (if length segments <? current_index + 1 then []
                    else match nth_error segments current_index with
                         | Some s => timestamp s
                         | None => []
                         end)
                   (strip fragment)]))
  /\ (forall translated_text,
        let fragments := split_char BAR translated_text in
        fold_left (reconcile segments) fragments
          (current_index, translated_content)
        = (current_index + nonblank_count fragments,
           translated_content
           ++ map render
                (reconcile_units segments current_index fragments))).
Proof.
  split.
  - intros fragment. rewrite reconcile_fragment.
    destruct (is_blank fragment); [reflexivity|].
    unfold render, timestamp_at. simpl.
    replace (current_index + 1 - 1) with current_index by lia.
    reflexivity.
  - intros translated_text fragments. apply fold_reconcile.
Qed.

(** * Properties of a run *)

(** A call of the gateway only appends events, and when it returns a text
    that text is the one text the backend returned during the call. *)
Lemma retry_loop_events
  (backend : nat -> str -> outcome str) (p : str) (retries : nat) :
  forall w o w',
    retry_loop backend retries p w = (o, w') ->
    exists events,
      w' = w ++ events
      /\ (1 <= retries ->
          forall t, o = Returned t -> returned_texts events = [t]).
Proof.
  induction retries as [|r IH]; intros w o w' Hrun.
  - cbn in Hrun. injection Hrun as <- <-. exists [].
    split; [now rewrite app_nil_r|lia].
  - destruct (backend (invocations w) p) as [t|e] eqn:B.
    + rewrite (retry_loop_answer backend r p t w B) in Hrun.
      injection Hrun as <- <-. eexists. split; [reflexivity|].
      intros _ t' [= <-]. reflexivity.
    + destruct r as [|r].
      * rewrite (retry_loop_give_up backend p e w B) in Hrun.
        injection Hrun as <- <-. eexists. split; [reflexivity|].
        intros _ t' [=].
      * rewrite (retry_loop_again backend r p e w B) in Hrun.
        destruct (IH _ _ _ Hrun) as (events & -> & Htexts).
        exists ([Invoked p (Raised e); Slept 1] ++ events).
        split; [now rewrite app_assoc|].
        intros _ t Ho. rewrite returned_texts_app. simpl.
        apply Htexts; [lia|exact Ho].
Qed.

Lemma retrieve_translation_events
  (backend : nat -> str -> outcome str) (text language api_key : str)
  (w : world) (t : str) (w' : world) :
  retrieve_translation backend text language api_key w = (Returned t, w') ->
  exists events, w' = w ++ events /\ returned_texts events = [t].
Proof.
  unfold retrieve_translation. intros Hrun.
  destruct (retry_loop_events backend _ 3 w _ _ Hrun) as (events & E & H).
  exists events. split; [exact E|]. apply H; [lia|reflexivity].
Qed.

Lemma split_char_single (sep : N) (s : str) :
  ~ In sep s -> split_char sep s = [s].
Proof.
  induction s as [|c s IH]; intros Hno; simpl; [reflexivity|].
  destruct (N.eqb_spec c sep) as [->|Hc]; [exfalso; apply Hno; now left|].
  rewrite IH; [reflexivity|]. intros H. apply Hno. now right.
Qed.

Lemma blank_has_no_bar (t : str) : is_blank t = true -> ~ In BAR t.
Proof.
  unfold is_blank. rewrite forallb_forall. intros H Hin.
  specialize (H BAR Hin). discriminate.
Qed.

(** Going through the fragments of a blank text changes nothing.  (An
    empty text is skipped at line 140; a text of whitespace only is split
    into one fragment, which line 148 skips.) *)
Lemma fold_reconcile_blank (segments : list Segment) (t : str)
  (st : nat * list str) :
  is_blank t = true ->
  fold_left (reconcile segments) (split_char BAR t) st = st.
Proof.
  intros B. rewrite (split_char_single BAR t (blank_has_no_bar t B)).
  destruct st as [idx acc]. cbn [fold_left].
  now rewrite reconcile_fragment, B.
Qed.

(** What the loop over the groups computes: it only appends events, the
    backend returned one text per group, and the final index and output
    are those of reconciling the fragments of those texts in order,
    across all batches, against the whole segment list. *)
Lemma translate_groups_events
  (backend : nat -> str -> outcome str) (segments : list Segment)
  (target_language api_key : str) (groups : list (list Segment)) :
  forall st w st' w',
    translate_groups backend segments target_language api_key groups st w
    = (Returned st', w') ->
    exists events,
      w' = w ++ events
      /\ length (returned_texts events) = length groups
      /\ st' = fold_left (reconcile segments) (fragments_of events) st.
Proof.
  induction groups as [|group groups IH]; intros st w st' w' Hrun.
  - cbn in Hrun. injection Hrun as <- <-. exists [].
    rewrite app_nil_r. repeat split.
  - cbn [translate_groups] in Hrun. unfold bind at 1 in Hrun.
    destruct (retrieve_translation backend _ target_language api_key w)
      as [[t|e] w1] eqn:R; [|discriminate].
    destruct (retrieve_translation_events _ _ _ _ _ _ _ R) as (ev1 & -> & T1).
    assert (Hrest :
      translate_groups backend segments target_language api_key groups
        (fold_left (reconcile segments) (split_char BAR t) st) (w ++ ev1)
      = (Returned st', w')).
    { destruct t as [|c t]; cbn [truthy negb] in Hrun; [|exact Hrun].
      rewrite fold_reconcile_blank; [exact Hrun|reflexivity]. }
    destruct (IH _ _ _ _ Hrest) as (ev2 & -> & L2 & F2).
    exists (ev1 ++ ev2). split; [now rewrite app_assoc|].
    unfold fragments_of. rewrite returned_texts_app, T1. split.
    + simpl. now rewrite L2.
    + simpl. rewrite fold_left_app. exact F2.
Qed.

(** C9. Empty-result skip: when the gateway returns an empty or
    whitespace-only text for a batch, the loop goes on to the remaining
    batches with the running index and the output collected so far
    unchanged; the batch fails nothing and contributes nothing. *)
Theorem blank_result_skips_batch
  (backend : nat -> str -> outcome str) (segments : list Segment)
  (target_language api_key : str)
  (group : list Segment) (groups : list (list Segment))
  (st : nat * list str) (w : world) (translated_text : str) (w1 : world) :
  retrieve_translation backend (join [BAR] (map text group))
    target_language api_key w = (Returned translated_text, w1) ->
  is_blank translated_text = true ->
  translate_groups backend segments target_language api_key
    (group :: groups) st w
  = translate_groups backend segments target_language api_key groups st w1.
Proof.
  intros R B. cbn [translate_groups]. unfold bind at 1. rewrite R.
  destruct translated_text as [|c t]; cbn [truthy negb]; [reflexivity|].
  now rewrite fold_reconcile_blank.
Qed.

Lemma blank_result_skips_batch_witness :
  let s1 := mkSegment 1 (py "00:00:00,000 --> 00:00:02,000") (py "Hello") in
  let s2 := mkSegment 2 (py "00:00:02,000 --> 00:00:04,000") (py "World") in
  let w1 := [Invoked (user_prompt (py "Hello") (py "French"))
               (Returned (py "  "))] in
  retrieve_translation blank_then_text (join [BAR] (map text [s1]))
    (py "French") (py "key") [] = (Returned (py "  "), w1)
  /\ is_blank (py "  ") = true
  /\ translate_groups blank_then_text [s1; s2] (py "French") (py "key")
       [[s1]; [s2]] (0, []) []
     = translate_groups blank_then_text [s1; s2] (py "French") (py "key")
         [[s2]] (0, []) w1
  /\ translate_groups blank_then_text [s1; s2] (py "French") (py "key")
       [[s2]] (0, []) w1
     = (Returned (1, [srt_block 1 (py "00:00:00,000 --> 00:00:02,000")
                        (py "Monde")]),
        w1 ++ [Invoked (user_prompt (py "World") (py "French"))
                 (Returned (py "Monde"))]).
Proof.
  intros s1 s2 w1.
  assert (H1 : retrieve_translation blank_then_text
                 (join [BAR] (map text [s1])) (py "French") (py "key") []
               = (Returned (py "  "), w1)) by (vm_compute; reflexivity).
  assert (H2 : is_blank (py "  ") = true) by (vm_compute; reflexivity).
  split; [exact H1|]. split; [exact H2|]. split.
  - exact (blank_result_skips_batch blank_then_text [s1; s2] (py "French")
             (py "key") [s1] [[s2]] (0, []) [] (py "  ") w1 H1 H2).
  - vm_compute. reflexivity.
Defined.

(** ** Blank files *)

Lemma split_blocks_step (c : N) (s : str) :
  split_blocks (c :: s)
  = match s with
    | d :: s'' =>
        if (c =? LF)%N && (d =? LF)%N then [] :: split_blocks s''
        else
          match s'' with
          | e :: f :: s4 =>
              if (c =? CR)%N && (d =? LF)%N && (e =? CR)%N && (f =? LF)%N
              then [] :: split_blocks s4
              else push_char c (split_blocks s)
          | _ => push_char c (split_blocks s)
          end
    | [] => push_char c (split_blocks s)
    end.
Proof. destruct s as [|d [|e [|f s4]]]; reflexivity. Qed.

Lemma in_push_char (c : N) (pieces : list str) (b : str) (x : N) :
  In b (push_char c pieces) -> In x b ->
  x = c \/ exists b', In b' pieces /\ In x b'.
Proof.
  destruct pieces as [|p ps]; simpl.
  - intros [<-|[]] [<-|[]]. now left.
  - intros [<-|Hb] Hx.
    + destruct Hx as [<-|Hx]; [now left|]. right. exists p. auto.
    + right. exists b. auto.
Qed.

(** Every character of a piece of [split_blocks] is a character of the
    string that was split. *)
Lemma split_blocks_chars (n : nat) :
  forall s, length s <= n ->
  forall b, In b (split_blocks s) -> forall x, In x b -> In x s.
Proof.
  induction n as [|n IH]; intros s Hlen b Hb x Hx.
  - destruct s; [|simpl in Hlen; lia].
    simpl in Hb. destruct Hb as [<-|[]]. destruct Hx.
  - destruct s as [|c s]; [simpl in Hb; destruct Hb as [<-|[]]; destruct Hx|].
    simpl in Hlen.
    assert (Hpush : In b (push_char c (split_blocks s)) -> In x (c :: s)).
    { intros Hb'. destruct (in_push_char c _ b x Hb' Hx) as [->|(b' & Hb1 & Hx1)].
      - now left.
      - right. apply (IH s ltac:(lia) b' Hb1 x Hx1). }
    rewrite split_blocks_step in Hb.
    destruct s as [|d s'']; [now apply Hpush|].
    simpl in Hlen.
    destruct ((c =? LF)%N && (d =? LF)%N).
    + destruct Hb as [<-|Hb]; [destruct Hx|].
      right. right. apply (IH s'' ltac:(lia) b Hb x Hx).
    + destruct s'' as [|e [|f s4]]; try now apply Hpush.
      simpl in Hlen.
      destruct ((c =? CR)%N && (d =? LF)%N && (e =? CR)%N && (f =? LF)%N);
        [|now apply Hpush].
      destruct Hb as [<-|Hb]; [destruct Hx|].
      do 4 right. apply (IH s4 ltac:(lia) b Hb x Hx).
Qed.

Lemma split_blocks_blank (content : str) :
  is_blank content = true ->
  forall b, In b (split_blocks content) -> is_blank b = true.
Proof.
  unfold is_blank. rewrite forallb_forall. intros Hall b Hb.
  apply forallb_forall. intros x Hx. apply Hall.
  apply (split_blocks_chars (length content) content (le_n _) b Hb x Hx).
Qed.

Lemma filter_none {A} (f : A -> bool) (l : list A) :
  (forall x, In x l -> f x = false) -> filter f l = [].
Proof.
  induction l as [|a l IH]; intros H; simpl; [reflexivity|].
  rewrite (H a (or_introl eq_refl)). apply IH. intros x Hx. apply H. now right.
Qed.

(** No block of a blank file is kept by the filter of line 124. *)
Lemma blank_file_no_blocks (content : str) :
  is_blank content = true ->
  filter (fun seg => truthy (strip seg)) (split_blocks content) = [].
Proof.
  intros B. apply filter_none. intros b Hb.
  rewrite truthy_strip, (split_blocks_blank content B b Hb). reflexivity.
Qed.

(** C10. A file whose content is empty or only whitespace and blank lines:
    with an API key available, the run returns the empty string and leaves
    the world as it found it, so the backend is not invoked at all. *)
Theorem blank_file_translates_to_nothing
  (backend : nat -> str -> outcome str) (api_key content : str)
  (target_language : str) (w : world) :
  api_key <> [] ->
  is_blank content = true ->
  translate_srt_file backend (Some api_key) content target_language w
  = (Returned [], w)
  /\ invocations
       (snd (translate_srt_file backend (Some api_key) content
               target_language w))
     = invocations w.
Proof.
  intros Hkey B.
  assert (E : translate_srt_file backend (Some api_key) content
                target_language w = (Returned [], w)).
  { unfold translate_srt_file.
    destruct api_key as [|c api_key]; [congruence|].
    rewrite (blank_file_no_blocks content B). reflexivity. }
  rewrite E. split; reflexivity.
Qed.

Lemma blank_file_translates_to_nothing_witness :
  (py "key" <> [] /\ is_blank (py "\n \r\n\r\n\t\n\n") = true
   /\ translate_srt_file always_fails (Some (py "key"))
        (py "\n \r\n\r\n\t\n\n") (py "French") []
      = (Returned [], []))
  /\ (is_blank [] = true
      /\ translate_srt_file always_fails (Some (py "key")) [] (py "French") []
         = (Returned [], [])).
Proof.
  assert (Hkey : py "key" <> []) by discriminate.
  split.
  - split; [exact Hkey|]. split; [reflexivity|].
    apply (blank_file_translates_to_nothing always_fails (py "key")
             (py "\n \r\n\r\n\t\n\n") (py "French") [] Hkey eq_refl).
  - split; [reflexivity|].
    apply (blank_file_translates_to_nothing always_fails (py "key")
             [] (py "French") [] Hkey eq_refl).
Defined.

(** ** Indices of the emitted units *)

Lemma skipn_past_prefix {A} (l1 l2 : list A) :
  skipn (length l1) (l1 ++ l2) = l2.
Proof.
  induction l1 as [|a l1 IH]; simpl; [reflexivity|exact IH].
Qed.

(** A run that returns has parsed every block, and its result is the
    concatenated rendering of the units obtained by reconciling, from
    index 0, the fragments of all the texts the backend returned during
    the run; their indices are 1, 2, 3, ... in order. *)
Lemma run_output (backend : nat -> str -> outcome str)
  (env_api_key : option str) (content target_language : str)
  (w : world) (result : str) (w' : world) :
  translate_srt_file backend env_api_key content target_language w
  = (Returned result, w') ->
  exists segments,
    parse_all (filter (fun seg => truthy (strip seg)) (split_blocks content))
    = Returned segments
    /\ let units :=
         reconcile_units segments 0 (fragments_of (skipn (length w) w')) in
       result = concat (map render units)
       /\ map out_index units = seq 1 (length units)
       /\ length units
          = nonblank_count (fragments_of (skipn (length w) w')).
Proof.
  unfold translate_srt_file. intros Hrun.
  destruct env_api_key as [[|c api_key]|]; try discriminate.
  unfold bind at 1, lift in Hrun.
  destruct (parse_all _) as [segments|e]; [|discriminate].
  exists segments. split; [reflexivity|].
  unfold bind, ret in Hrun.
  destruct (translate_groups _ _ _ _ _ _ _) as [[st|e] w1] eqn:G;
    [|discriminate].
  injection Hrun as <- <-.
  destruct (translate_groups_events _ _ _ _ _ _ _ _ _ G)
    as (events & -> & _ & ->).
  rewrite skipn_past_prefix, fold_reconcile. cbn [snd app].
  rewrite reconcile_units_indices, reconcile_units_length.
  repeat split.
Qed.

(** C7. Output index monotonicity: in a run that returns, when the texts
    returned by the backend hold as many non-blank fragments in total as
    there are parsed segments, the emitted units carry the indices
    1, 2, ..., up to the number of segments, in that order. *)
Theorem output_indices_consecutive
  (backend : nat -> str -> outcome str)
  (env_api_key : option str) (content target_language : str)
  (w : world) (result : str) (w' : world) (segments : list Segment) :
  parse_all (filter (fun seg => truthy (strip seg)) (split_blocks content))
  = Returned segments ->
  translate_srt_file backend env_api_key content target_language w
  = (Returned result, w') ->
  nonblank_count (fragments_of (skipn (length w) w')) = length segments ->
  let units :=
    reconcile_units segments 0 (fragments_of (skipn (length w) w')) in
  result = concat (map render units)
  /\ map out_index units = seq 1 (length segments).
Proof.
  intros Hparse Hrun Hcount units.
  destruct (run_output backend env_api_key content target_language w
              result w' Hrun) as (segments' & Hparse' & Hres & Hidx & Hlen).
  rewrite Hparse in Hparse'. injection Hparse' as <-.
  split; [exact Hres|].
  fold units in Hidx, Hlen. rewrite Hidx, Hlen, Hcount. reflexivity.
Qed.

Lemma output_indices_consecutive_witness :
  let w' := [Invoked (user_prompt (py "Hello|World") (py "French"))
               (Returned (py "Bonjour|Monde"))] in
  (parse_all (filter (fun seg => truthy (strip seg))
                (split_blocks example_input))
   = Returned example_segments
   /\ translate_srt_file bonjour_monde (Some (py "key")) example_input
        (py "French") []
      = (Returned example_output, w')
   /\ nonblank_count (fragments_of (skipn (length (@nil event)) w'))
      = length example_segments)
  /\ (let units :=
        reconcile_units example_segments 0
          (fragments_of (skipn (length (@nil event)) w')) in
      example_output = concat (map render units)
      /\ map out_index units = seq 1 (length example_segments)).
Proof.
  intros w'.
  assert (H1 : parse_all (filter (fun seg => truthy (strip seg))
                            (split_blocks example_input))
               = Returned example_segments)
    by (vm_compute; reflexivity).
  assert (H2 : translate_srt_file bonjour_monde (Some (py "key"))
                 example_input (py "French") []
               = (Returned example_output, w'))
    by (vm_compute; reflexivity).
  assert (H3 : nonblank_count (fragments_of (skipn (length (@nil event)) w'))
               = length example_segments)
    by (vm_compute; reflexivity).
  split; [split; [exact H1|split; [exact H2|exact H3]]|].
  exact (output_indices_consecutive bonjour_monde (Some (py "key"))
           example_input (py "French") [] example_output w'
           example_segments H1 H2 H3).
Defined.

(** C1. End to end: for the two-segment file of the example, whose
    segments fit one batch of the budget of 700, and a gateway stub that
    answers "Bonjour|Monde", [translate_srt_file] returns exactly the two
    blocks "{index}\n{timestamp}\n{text}\n\n" with the original timestamps
    and the translated texts, concatenated; the backend is invoked once,
    with both texts joined by the bar. *)
Theorem end_to_end_example
  (c : N) (api_key target_language : str) (w : world) :
  translate_srt_file bonjour_monde (Some (c :: api_key)) example_input
    target_language w
  = (Returned example_output,
     w ++ [Invoked (user_prompt (py "Hello|World") target_language)
             (Returned (py "Bonjour|Monde"))])
  /\ group_segments_by_token_length example_segments MAX_TOKENS_IN_SEGMENT
     = [example_segments]
  /\ example_output
     = srt_block 1 (py "00:00:00,000 --> 00:00:02,000") (py "Bonjour")
       ++ srt_block 2 (py "00:00:02,000 --> 00:00:04,000") (py "Monde").
Proof.
  split; [|split]; vm_compute; reflexivity.
Qed.

(** * Further properties of the batcher *)

Lemma nonempty_lengths (l : list (list Segment)) :
  Forall nonempty l -> length l <= list_sum (map (@length Segment) l).
Proof.
  induction 1 as [|b l Hb _ IH]; simpl; [lia|].
  destruct b; [now elim Hb|]. simpl. lia.
Qed.

(** X1. An empty batch is emitted exactly when the first segment alone
    exceeds the budget, and only in first position: every batch after the
    first holds a segment. *)
Theorem empty_batch_only_first (segments : list Segment) (max_tokens : Z) :
  let batches := group_segments_by_token_length segments max_tokens in
  Forall nonempty (tl batches)
  /\ (In [] batches <->
      exists s rest,
        segments = s :: rest /\ (max_tokens < estimate_tokens (text s))%Z).
Proof.
  cbv zeta. destruct segments as [|s rest].
  - split; [constructor|]. split.
    + intros [].
    + intros (s & rest & E & _). discriminate.
  - destruct (Z.le_gt_cases (estimate_tokens (text s)) max_tokens)
      as [Hfit|Hover].
    + pose proof (batches_nonempty_when_first_fits s rest max_tokens Hfit)
        as Hall.
      split.
      * destruct (group_segments_by_token_length (s :: rest) max_tokens);
          [constructor|]. now inversion Hall.
      * split.
        -- intros Hin. rewrite Forall_forall in Hall.
           now elim (Hall [] Hin).
        -- intros (s' & rest' & [= <- <-] & Hlt). lia.
    + destruct (first_batch_empty_when_oversized s rest max_tokens Hover)
        as (more & E & Hmore).
      rewrite E. split; [exact Hmore|]. split.
      * intros _. exists s, rest. now split.
      * intros _. now left.
Qed.

Lemma batch_count_le (segments : list Segment) (max_tokens : Z) :
  length (group_segments_by_token_length segments max_tokens)
  <= length segments + 1.
Proof.
  pose proof (group_segments_concat segments max_tokens) as Hcat.
  destruct segments as [|s rest]; [vm_compute; lia|].
  assert (Htl : Forall nonempty
                  (tl (group_segments_by_token_length (s :: rest)
                         max_tokens))).
  { destruct (Z.le_gt_cases (estimate_tokens (text s)) max_tokens)
      as [Hfit|Hover].
    - pose proof (batches_nonempty_when_first_fits s rest max_tokens Hfit)
        as Hall.
      destruct (group_segments_by_token_length (s :: rest) max_tokens);
        [constructor|]. now inversion Hall.
    - destruct (first_batch_empty_when_oversized s rest max_tokens Hover)
        as (more & E & Hmore). now rewrite E. }
  apply (f_equal (@length Segment)) in Hcat.
  rewrite length_concat_sum in Hcat.
  destruct (group_segments_by_token_length (s :: rest) max_tokens)
    as [|b more]; [simpl; lia|].
  simpl in Htl, Hcat |- *.
  pose proof (nonempty_lengths more Htl). lia.
Qed.

(** X2. There are at most as many batches as segments, plus the one empty
    batch that an oversized first segment produces; and there is no batch
    at all exactly when there is no segment. *)
Theorem batch_count_bounds (segments : list Segment) (max_tokens : Z) :
  let batches := group_segments_by_token_length segments max_tokens in
  length batches <= length segments + 1
  /\ (batches = [] <-> segments = []).
Proof.
  cbv zeta.
  pose proof (group_segments_concat segments max_tokens) as Hcat.
  split; [apply batch_count_le|].
  split; intros E.
  - rewrite E in Hcat. simpl in Hcat. congruence.
  - subst segments. reflexivity.
Qed.

(** The loop never closes a group as long as everything seen fits. *)
Lemma batcher_fold_fits (max_tokens : Z) (segments : list Segment) :
  forall cur,
    (segments = []
     \/ sum_estimates cur + Z.of_nat (length cur)
        + sum_estimates segments + Z.of_nat (length segments) - 1
        <= max_tokens)%Z ->
    fold_left (batcher_step max_tokens) segments
      (mkBatcher [] cur (sum_estimates cur + Z.of_nat (length cur)))
    = mkBatcher [] (cur ++ segments)
        (sum_estimates (cur ++ segments)
         + Z.of_nat (length (cur ++ segments))).
Proof.
  induction segments as [|s segments IH]; intros cur Hfit.
  - simpl. now rewrite app_nil_r.
  - destruct Hfit as [Hnil|Hfit]; [discriminate|].
    assert (Hcons : sum_estimates (s :: segments)
                    = (estimate_tokens (text s) + sum_estimates segments)%Z)
      by reflexivity.
    assert (Hone : sum_estimates [s] = estimate_tokens (text s))
      by (unfold sum_estimates; simpl; lia).
    pose proof (sum_estimates_lower segments) as Hlow.
    cbn [fold_left]. unfold batcher_step at 2.
    cbn [current_group_token_count current_group groups].
    rewrite Hcons in Hfit. simpl length in Hfit.
    destruct (Z.leb_spec (sum_estimates cur + Z.of_nat (length cur)
                          + estimate_tokens (text s)) max_tokens)
      as [_|Hgt]; [|lia].
    replace (sum_estimates cur + Z.of_nat (length cur)
             + estimate_tokens (text s) + 1)%Z
      with (sum_estimates (cur ++ [s]) + Z.of_nat (length (cur ++ [s])))%Z
      by (rewrite sum_estimates_app, length_app, Hone; simpl length; lia).
    rewrite IH.
    + now rewrite <- app_assoc.
    + destruct segments as [|s' segments']; [now left|right].
      rewrite sum_estimates_app, length_app, Hone. simpl length in *. lia.
Qed.

(** X3. Segments whose combined cost (estimates plus delimiters) fits the
    budget form a single batch; conversely a non-empty input that comes
    back as one batch has a combined cost within the budget. *)
Theorem single_batch_iff_fits (segments : list Segment) (max_tokens : Z) :
  segments <> [] ->
  (group_segments_by_token_length segments max_tokens = [segments]
   <-> (combined_cost segments <= max_tokens)%Z).
Proof.
  intros Hne. split.
  - intros E. apply (first_batch_within_budget segments max_tokens _ _ E Hne).
  - intros Hfit. unfold group_segments_by_token_length.
    change batcher_init
      with (mkBatcher [] [] (sum_estimates [] + Z.of_nat (length (@nil Segment)))).
    rewrite batcher_fold_fits.
    + unfold batcher_finish. simpl. destruct segments; [congruence|reflexivity].
    + right. unfold combined_cost in Hfit.
      assert (1 <= length segments)
        by (destruct segments; [congruence|simpl; lia]).
      unfold sum_estimates at 1. simpl. lia.
Qed.

Lemma single_batch_iff_fits_witness :
  example_segments <> []
  /\ (combined_cost example_segments <= MAX_TOKENS_IN_SEGMENT)%Z
  /\ group_segments_by_token_length example_segments MAX_TOKENS_IN_SEGMENT
     = [example_segments].
Proof.
  assert (Hne : example_segments <> []) by discriminate.
  assert (Hfit : (combined_cost example_segments <= MAX_TOKENS_IN_SEGMENT)%Z)
    by (vm_compute; discriminate).
  split; [exact Hne|]. split; [exact Hfit|].
  exact (proj2 (single_batch_iff_fits example_segments MAX_TOKENS_IN_SEGMENT
                  Hne) Hfit).
Defined.

(** ** Greedy closing *)

Lemma adjacent_overflow_snoc (max_tokens : Z) (l : list (list Segment))
  (b : list Segment) (s : Segment) :
  adjacent_overflow max_tokens (l ++ [b]) ->
  (max_tokens < combined_cost (b ++ [s]))%Z ->
  adjacent_overflow max_tokens ((l ++ [b]) ++ [[s]]).
Proof.
  intros Hadj Hover. induction l as [|a l IH].
  - simpl. auto.
  - cbn [app adjacent_overflow] in Hadj |- *.
    destruct Hadj as [Hhead Htail]. split; [|now apply IH].
    destruct l as [|a' l']; [exact Hhead|].
    cbn [app] in Hhead |- *. exact Hhead.
Qed.

Lemma adjacent_overflow_extend (max_tokens : Z) (l : list (list Segment))
  (b : list Segment) (s : Segment) :
  b <> [] ->
  adjacent_overflow max_tokens (l ++ [b]) ->
  adjacent_overflow max_tokens (l ++ [b ++ [s]]).
Proof.
  intros Hb Hadj. induction l as [|a l IH].
  - simpl. auto.
  - cbn [app adjacent_overflow] in Hadj |- *.
    destruct Hadj as [Hhead Htail]. split; [|now apply IH].
    destruct l as [|a' l'].
    + cbn [app] in Hhead |- *.
      destruct b as [|x b]; [congruence|exact Hhead].
    + cbn [app] in Hhead |- *. exact Hhead.
Qed.

Lemma greedy_inv_step (max_tokens : Z) (st : batcher) (s : Segment) :
  greedy_inv max_tokens st ->
  greedy_inv max_tokens (batcher_step max_tokens st s).
Proof.
  intros [Hi Ha Hc]. unfold batcher_step.
  assert (Hone : sum_estimates [s] = estimate_tokens (text s))
    by (unfold sum_estimates; simpl; lia).
  destruct (Z.leb_spec (current_group_token_count st
                        + estimate_tokens (text s)) max_tokens) as [Hle|Hgt].
  - split; cbn [groups current_group current_group_token_count].
    + intros E. destruct (current_group st); discriminate.
    + destruct (current_group st) as [|x cur] eqn:E.
      * rewrite (Hi eq_refl). simpl. auto.
      * rewrite <- E. apply adjacent_overflow_extend;
          [rewrite E; discriminate|]. rewrite E. exact Ha.
    + rewrite sum_estimates_app, length_app, Hone. simpl length. lia.
  - split; cbn [groups current_group current_group_token_count].
    + discriminate.
    + apply adjacent_overflow_snoc; [exact Ha|].
      unfold combined_cost.
      rewrite sum_estimates_app, length_app, Hone. simpl length. lia.
    + rewrite Hone. simpl length. lia.
Qed.

Lemma greedy_inv_fold (max_tokens : Z) (segments : list Segment) :
  forall st,
    greedy_inv max_tokens st ->
    greedy_inv max_tokens (fold_left (batcher_step max_tokens) segments st).
Proof.
  induction segments as [|s segments IH]; intros st Hinv; simpl.
  - exact Hinv.
  - apply IH, greedy_inv_step, Hinv.
Qed.

Lemma batches_adjacent_overflow (segments : list Segment) (max_tokens : Z) :
  adjacent_overflow max_tokens
    (group_segments_by_token_length segments max_tokens).
Proof.
  unfold group_segments_by_token_length.
  assert (Hinit : greedy_inv max_tokens batcher_init).
  { split; simpl; auto. lia. }
  destruct (greedy_inv_fold max_tokens segments _ Hinit) as [Hi Ha _].
  unfold batcher_finish.
  destruct (current_group _) as [|x cur] eqn:E.
  - rewrite (Hi eq_refl). exact I.
  - exact Ha.
Qed.

Lemma adjacent_overflow_at (max_tokens : Z) (pre : list (list Segment))
  (b : list Segment) (s : Segment) (b' : list Segment)
  (post : list (list Segment)) :
  adjacent_overflow max_tokens (pre ++ b :: (s :: b') :: post) ->
  (max_tokens < combined_cost (b ++ [s]))%Z.
Proof.
  induction pre as [|a pre IH]; cbn [app adjacent_overflow].
  - intros [H _]. exact H.
  - intros [_ H]. apply IH, H.
Qed.

(** X4. Greedy closing: wherever a batch is followed by another, the
    first segment of the follower did not fit, that is, the earlier batch
    extended by that segment has a combined cost above the budget. *)
Theorem batches_closed_only_on_overflow
  (segments : list Segment) (max_tokens : Z)
  (pre : list (list Segment)) (b : list Segment) (s : Segment)
  (b' : list Segment) (post : list (list Segment)) :
  group_segments_by_token_length segments max_tokens
  = pre ++ b :: (s :: b') :: post ->
  (max_tokens < combined_cost (b ++ [s]))%Z.
Proof.
  intros E. apply (adjacent_overflow_at max_tokens pre b s b' post).
  rewrite <- E. apply batches_adjacent_overflow.
Qed.

Lemma batches_closed_only_on_overflow_witness :
  group_segments_by_token_length three_segments 4
  = [] ++ [seg_a] :: (seg_b :: [seg_c]) :: []
  /\ (4 < combined_cost ([seg_a] ++ [seg_b]))%Z.
Proof.
  assert (E : group_segments_by_token_length three_segments 4
              = [] ++ [seg_a] :: (seg_b :: [seg_c]) :: [])
    by (vm_compute; reflexivity).
  split; [exact E|].
  exact (batches_closed_only_on_overflow three_segments 4 [] [seg_a] seg_b
           [seg_c] [] E).
Defined.

(** X5. A batch of two or more segments has estimates that add up to at
    most the budget, and a combined cost (with the delimiters) of at most
    the budget plus one. *)
Theorem multi_segment_batches_near_budget
  (segments : list Segment) (max_tokens : Z) (b : list Segment) :
  In b (group_segments_by_token_length segments max_tokens) ->
  2 <= length b ->
  (sum_estimates b <= max_tokens)%Z
  /\ (combined_cost b <= max_tokens + 1)%Z.
Proof.
  apply multi_segment_batch_bounds.
Qed.

Lemma multi_segment_batches_near_budget_witness :
  In [seg_b; seg_c] (group_segments_by_token_length three_segments 4)
  /\ 2 <= length [seg_b; seg_c]
  /\ (sum_estimates [seg_b; seg_c] <= 4)%Z
  /\ (combined_cost [seg_b; seg_c] <= 4 + 1)%Z.
Proof.
  assert (Hin : In [seg_b; seg_c]
                  (group_segments_by_token_length three_segments 4))
    by (right; left; vm_compute; reflexivity).
  assert (Hlen : 2 <= length [seg_b; seg_c]) by (simpl; lia).
  split; [exact Hin|]. split; [exact Hlen|].
  exact (multi_segment_batches_near_budget three_segments 4 [seg_b; seg_c]
           Hin Hlen).
Defined.

(** X6. A segment whose own estimate exceeds the budget is neither
    dropped nor merged: it occurs in some batch, and every batch that
    holds it holds nothing else. *)
Theorem oversized_segment_gets_own_batch
  (segments : list Segment) (max_tokens : Z) (s : Segment) :
  In s segments ->
  (max_tokens < estimate_tokens (text s))%Z ->
  (exists b, In b (group_segments_by_token_length segments max_tokens)
             /\ In s b)
  /\ (forall b, In b (group_segments_by_token_length segments max_tokens) ->
                In s b -> b = [s]).
Proof.
  apply oversized_segment_alone.
Qed.

Lemma oversized_segment_gets_own_batch_witness :
  In seg_a three_segments
  /\ (2 < estimate_tokens (text seg_a))%Z
  /\ (exists b, In b (group_segments_by_token_length three_segments 2)
                /\ In seg_a b)
  /\ (forall b, In b (group_segments_by_token_length three_segments 2) ->
                In seg_a b -> b = [seg_a]).
Proof.
  assert (Hin : In seg_a three_segments) by (left; reflexivity).
  assert (Hover : (2 < estimate_tokens (text seg_a))%Z)
    by (vm_compute; reflexivity).
  split; [exact Hin|]. split; [exact Hover|].
  exact (oversized_segment_gets_own_batch three_segments 2 seg_a Hin Hover).
Defined.

(** X7. The first batch, when it holds a segment, has a combined cost
    within the budget, delimiters included. *)
Theorem first_batch_respects_budget
  (segments : list Segment) (max_tokens : Z)
  (b : list Segment) (rest : list (list Segment)) :
  group_segments_by_token_length segments max_tokens = b :: rest ->
  b <> [] ->
  (combined_cost b <= max_tokens)%Z.
Proof.
  apply first_batch_within_budget.
Qed.

Lemma first_batch_respects_budget_witness :
  group_segments_by_token_length three_segments 6
  = [seg_a; seg_b] :: [[seg_c]]
  /\ [seg_a; seg_b] <> []
  /\ (combined_cost [seg_a; seg_b] <= 6)%Z.
Proof.
  assert (E : group_segments_by_token_length three_segments 6
              = [seg_a; seg_b] :: [[seg_c]]) by (vm_compute; reflexivity).
  assert (Hne : [seg_a; seg_b] <> []) by discriminate.
  split; [exact E|]. split; [exact Hne|].
  exact (first_batch_respects_budget three_segments 6 [seg_a; seg_b]
           [[seg_c]] E Hne).
Defined.

(** * Further properties of the parser *)

Lemma parse_segment_only_index_error (block : str) (e : exn) :
  parse_segment block = Raised e -> e = IndexError.
Proof.
  unfold parse_segment.
  destruct (split_lines block) as [|a [|b rest]]; congruence.
Qed.

(** X8. [parse_segment] fails on exactly the blocks without a line feed,
    and the only exception it raises is [IndexError]: a first line that is
    not a number never makes it fail. *)
Theorem parse_segment_fails_exactly_on_one_line (block : str) :
  (parse_segment block = Raised IndexError <-> ~ In LF block)
  /\ ((exists seg, parse_segment block = Returned seg) <-> In LF block)
  /\ (parse_segment block = Raised IndexError
      \/ exists seg, parse_segment block = Returned seg).
Proof.
  pose proof (parse_segment_raises_iff block) as Hiff.
  assert (Hret : In LF block -> exists seg, parse_segment block = Returned seg).
  { intros Hin.
    destruct (parse_segment_returns block Hin) as (a & b & r & _ & E).
    eauto. }
  split; [exact Hiff|]. split.
  - split; [|exact Hret].
    intros (seg & E). destruct (in_dec N.eq_dec LF block) as [Hin|Hno];
      [exact Hin|]. apply Hiff in Hno. congruence.
  - destruct (in_dec N.eq_dec LF block) as [Hin|Hno].
    + right. now apply Hret.
    + left. now apply Hiff.
Qed.

(** A character that is neither LF nor CR joins the current line. *)
Lemma split_lines_plain (c : N) (s : str) :
  c <> LF -> c <> CR ->
  split_lines (c :: s) = push_char c (split_lines s).
Proof.
  intros Hlf Hcr. rewrite split_lines_step.
  apply N.eqb_neq in Hlf. apply N.eqb_neq in Hcr. rewrite Hlf, Hcr.
  destruct s; reflexivity.
Qed.

Lemma split_lines_line_lf (l rest : str) :
  ~ In LF l -> ~ In CR l ->
  split_lines (l ++ LF :: rest) = l :: split_lines rest.
Proof.
  induction l as [|c l IH]; intros Hlf Hcr.
  - reflexivity.
  - cbn [app]. rewrite split_lines_plain.
    + rewrite IH; [reflexivity| |]; intros H; [apply Hlf|apply Hcr];
        now right.
    + intros ->. apply Hlf. now left.
    + intros ->. apply Hcr. now left.
Qed.

Lemma split_lines_line_crlf (l rest : str) :
  ~ In LF l -> ~ In CR l ->
  split_lines (l ++ CR :: LF :: rest) = l :: split_lines rest.
Proof.
  induction l as [|c l IH]; intros Hlf Hcr.
  - reflexivity.
  - cbn [app]. rewrite split_lines_plain.
    + rewrite IH; [reflexivity| |]; intros H; [apply Hlf|apply Hcr];
        now right.
    + intros ->. apply Hlf. now left.
    + intros ->. apply Hcr. now left.
Qed.

Lemma join_cons2 (sep p q : str) (ps : list str) :
  join sep (p :: q :: ps) = p ++ sep ++ join sep (q :: ps).
Proof. reflexivity. Qed.

(** Lines without CR and LF, joined by LF or by CR LF, are split back into
    the same lines. *)
Lemma split_lines_join (crlf : bool) (lines : list str) :
  lines <> [] ->
  Forall (fun l => ~ In LF l /\ ~ In CR l) lines ->
  split_lines (join (if crlf then [CR; LF] else [LF]) lines) = lines.
Proof.
  intros Hne Hall. revert Hne.
  induction Hall as [|l lines [Hlf Hcr] Hall IH]; intros Hne;
    [now elim Hne|].
  destruct lines as [|q lines].
  - simpl. now apply split_lines_single.
  - rewrite join_cons2. destruct crlf; cbn [app].
    + rewrite split_lines_line_crlf by assumption.
      f_equal. apply IH. discriminate.
    + rewrite split_lines_line_lf by assumption.
      f_equal. apply IH. discriminate.
Qed.

Lemma parse_segment_joined_lines
  (crlf : bool) (id_str ts : str) (text_lines : list str) :
  Forall (fun l => ~ In LF l /\ ~ In CR l) (id_str :: ts :: text_lines) ->
  parse_segment
    (join (if crlf then [CR; LF] else [LF]) (id_str :: ts :: text_lines))
  = Returned (mkSegment
                (match py_int id_str with Some n => n | None => 0%Z end)
                ts (join [SPACE] text_lines)).
Proof.
  intros Hall. unfold parse_segment.
  rewrite split_lines_join; [reflexivity|discriminate|exact Hall].
Qed.

(** X9. Parsing a well-formed block: an index line, a timestamp line and
    any number of text lines, none containing CR or LF, joined by LF or by
    CR LF, parse to the segment with that timestamp, the text lines joined
    by single spaces, and the index [int] reads from the first line (0
    when it reads none). *)
Theorem parse_segment_of_lines
  (crlf : bool) (id_str ts : str) (text_lines : list str) :
  Forall (fun l => ~ In LF l /\ ~ In CR l) (id_str :: ts :: text_lines) ->
  parse_segment
    (join (if crlf then [CR; LF] else [LF]) (id_str :: ts :: text_lines))
  = Returned (mkSegment
                (match py_int id_str with Some n => n | None => 0%Z end)
                ts (join [SPACE] text_lines)).
Proof.
  apply parse_segment_joined_lines.
Qed.

Lemma parse_segment_of_lines_witness :
  let ts := py "00:00:01,000 --> 00:00:02,500" in
  Forall (fun l => ~ In LF l /\ ~ In CR l)
    [py "7"; ts; py "Hello,"; py "world"]
  /\ parse_segment (join [CR; LF] [py "7"; ts; py "Hello,"; py "world"])
     = Returned (mkSegment
                   (match py_int (py "7") with Some n => n | None => 0%Z end)
                   ts (join [SPACE] [py "Hello,"; py "world"]))
  /\ join [CR; LF] [py "7"; ts; py "Hello,"; py "world"]
     = py "7\r\n00:00:01,000 --> 00:00:02,500\r\nHello,\r\nworld"
  /\ py_int (py "7") = Some 7%Z
  /\ join [SPACE] [py "Hello,"; py "world"] = py "Hello, world".
Proof.
  intros ts.
  assert (Hfree : forall l : str,
             forallb (fun c => negb (c =? LF)%N && negb (c =? CR)%N) l = true ->
             ~ In LF l /\ ~ In CR l).
  { intros l H. rewrite forallb_forall in H.
    split; intros Hin; specialize (H _ Hin); discriminate. }
  assert (H1 : Forall (fun l => ~ In LF l /\ ~ In CR l)
                 [py "7"; ts; py "Hello,"; py "world"]).
  { constructor; [apply Hfree; vm_compute; reflexivity|].
    constructor; [apply Hfree; vm_compute; reflexivity|].
    constructor; [apply Hfree; vm_compute; reflexivity|].
    constructor; [apply Hfree; vm_compute; reflexivity|].
    constructor. }
  split; [exact H1|]. split.
  - exact (parse_segment_of_lines true (py "7") ts [py "Hello,"; py "world"]
             H1).
  - split; [vm_compute; reflexivity|].
    split; vm_compute; reflexivity.
Defined.

Lemma push_char_no_lf (c : N) (pieces : list str) :
  c <> LF ->
  Forall (fun l => ~ In LF l) pieces ->
  Forall (fun l => ~ In LF l) (push_char c pieces).
Proof.
  intros Hc Hall. destruct pieces as [|p ps]; simpl.
  - constructor; [|constructor]. intros [H|[]]. now apply Hc.
  - inversion Hall as [|? ? Hp Hps]; subst. constructor; [|exact Hps].
    intros [H|H]; [now apply Hc|now apply Hp].
Qed.

(** No line produced by [split_lines] contains a line feed. *)
Lemma split_lines_no_lf (n : nat) :
  forall s, length s <= n -> Forall (fun l => ~ In LF l) (split_lines s).
Proof.
  induction n as [|n IH]; intros s Hlen.
  - destruct s; [|simpl in Hlen; lia]. repeat constructor. intros [].
  - destruct s as [|c s]; [repeat constructor; intros []|].
    simpl in Hlen. rewrite split_lines_step.
    destruct (N.eqb_spec c LF) as [->|Hc].
    + constructor; [intros []|]. apply IH. lia.
    + destruct s as [|d s'].
      * apply push_char_no_lf; [exact Hc|]. apply IH. simpl. lia.
      * destruct ((c =? CR)%N && (d =? LF)%N).
        -- constructor; [intros []|]. apply IH. simpl in Hlen. lia.
        -- apply push_char_no_lf; [exact Hc|]. apply IH. lia.
Qed.

Lemma join_space_no_lf (lines : list str) :
  Forall (fun l => ~ In LF l) lines -> ~ In LF (join [SPACE] lines).
Proof.
  induction 1 as [|l lines Hl Hall IH]; [intros []|].
  destruct lines as [|q lines]; [exact Hl|].
  rewrite join_cons2. intros Hin.
  apply in_app_or in Hin. destruct Hin as [Hin|Hin]; [now apply Hl|].
  destruct Hin as [Hin|Hin]; [discriminate|]. now apply IH.
Qed.

(** X10. Whatever the block, a segment that [parse_segment] returns has a
    timestamp and a text without any line feed: the text lines of a
    multi-line subtitle are flattened into one line. *)
Theorem parsed_segment_is_single_line (block : str) (seg : Segment) :
  parse_segment block = Returned seg ->
  ~ In LF (timestamp seg) /\ ~ In LF (text seg).
Proof.
  unfold parse_segment. intros Hparse.
  pose proof (split_lines_no_lf (length block) block (le_n _)) as Hall.
  destruct (split_lines block) as [|a [|b rest]]; try discriminate.
  injection Hparse as <-. simpl.
  inversion Hall as [|? ? _ Hall']; subst.
  inversion Hall' as [|? ? Hb Hrest]; subst.
  split; [exact Hb|]. now apply join_space_no_lf.
Qed.

Lemma parsed_segment_is_single_line_witness :
  let block := py "3\n00:00:05,000 --> 00:00:07,000\nfirst line\nsecond" in
  let seg := mkSegment 3 (py "00:00:05,000 --> 00:00:07,000")
               (py "first line second") in
  parse_segment block = Returned seg
  /\ ~ In LF (timestamp seg) /\ ~ In LF (text seg).
Proof.
  intros block seg.
  assert (H : parse_segment block = Returned seg)
    by (vm_compute; reflexivity).
  split; [exact H|].
  exact (parsed_segment_is_single_line block seg H).
Defined.

(** ** Parsing all the blocks *)

Lemma parse_all_raises (blocks : list str) (b : str) :
  In b blocks -> ~ In LF b -> parse_all blocks = Raised IndexError.
Proof.
  induction blocks as [|x blocks IH]; intros Hin Hno; [destruct Hin|].
  cbn [parse_all].
  destruct (parse_segment x) as [s|e] eqn:P.
  - destruct Hin as [->|Hin].
    + apply parse_segment_raises_iff in Hno. congruence.
    + now rewrite (IH Hin Hno).
  - now rewrite (parse_segment_only_index_error x e P).
Qed.

Lemma parse_all_returns (blocks : list str) :
  Forall (fun b => In LF b) blocks ->
  exists segments,
    parse_all blocks = Returned segments
    /\ length segments = length blocks.
Proof.
  induction 1 as [|b blocks Hb _ (segments & E & L)].
  - exists []. now split.
  - destruct (parse_segment_returns b Hb) as (i & t & r & _ & P).
    cbn [parse_all]. rewrite P, E. eexists. split; [reflexivity|].
    simpl. now rewrite L.
Qed.

Lemma parse_all_returned_blocks (blocks : list str) :
  forall segments,
    parse_all blocks = Returned segments -> Forall (fun b => In LF b) blocks.
Proof.
  induction blocks as [|b blocks IH]; intros segments; cbn [parse_all];
    [constructor|].
  destruct (parse_segment b) as [s|e] eqn:P; [|discriminate].
  destruct (parse_all blocks) as [ss|e]; [|discriminate].
  intros _. constructor; [|now apply (IH ss)].
  destruct (in_dec N.eq_dec LF b) as [Hin|Hno]; [exact Hin|].
  apply parse_segment_raises_iff in Hno. congruence.
Qed.

Lemma parse_all_only_index_error (blocks : list str) (e : exn) :
  parse_all blocks = Raised e -> e = IndexError.
Proof.
  induction blocks as [|b blocks IH]; cbn [parse_all]; [discriminate|].
  destruct (parse_segment b) as [s|e'] eqn:P.
  - destruct (parse_all blocks) as [ss|e'']; [discriminate|].
    intros [= <-]. now apply IH.
  - intros [= <-]. now apply (parse_segment_only_index_error b).
Qed.

(** X11. The blocks of a file are parsed all or nothing: the parse
    returns, one segment per block, exactly when every block has a line
    feed; it raises [IndexError], and nothing else, exactly when some
    block has none. *)
Theorem parse_all_all_or_nothing (blocks : list str) :
  ((exists segments,
      parse_all blocks = Returned segments
      /\ length segments = length blocks)
   <-> Forall (fun b => In LF b) blocks)
  /\ (parse_all blocks = Raised IndexError
      <-> Exists (fun b => ~ In LF b) blocks)
  /\ (parse_all blocks = Raised IndexError
      \/ exists segments, parse_all blocks = Returned segments).
Proof.
  split; [|split].
  - split; [|apply parse_all_returns].
    intros (segments & E & _). now apply (parse_all_returned_blocks blocks segments).
  - split.
    + intros E. apply Exists_exists.
      induction blocks as [|b blocks IH]; [discriminate|].
      cbn [parse_all] in E.
      destruct (parse_segment b) as [s|e] eqn:P.
      * destruct (parse_all blocks) as [ss|e]; [discriminate|].
        injection E as ->. destruct (IH eq_refl) as (x & Hin & Hno).
        exists x. split; [now right|exact Hno].
      * exists b. split; [now left|].
        apply parse_segment_raises_iff.
        now rewrite P, (parse_segment_only_index_error b e P).
    + intros H. apply Exists_exists in H. destruct H as (b & Hin & Hno).
      now apply (parse_all_raises blocks b).
  - destruct (parse_all blocks) as [segments|e] eqn:E.
    + right. eauto.
    + left. now rewrite (parse_all_only_index_error blocks e E).
Qed.

(** X12. A file with a block that is not blank and has no line feed makes
    the run raise [IndexError] before anything is requested from the
    backend, whatever the other blocks are. *)
Theorem malformed_block_aborts_before_any_request
  (backend : nat -> str -> outcome str) (api_key content : str)
  (target_language : str) (w : world) (b : str) :
  api_key <> [] ->
  In b (split_blocks content) ->
  is_blank b = false ->
  ~ In LF b ->
  translate_srt_file backend (Some api_key) content target_language w
  = (Raised IndexError, w).
Proof.
  intros Hkey Hin Hnb Hno. unfold translate_srt_file.
  destruct api_key as [|c api_key]; [congruence|].
  rewrite (parse_all_raises _ b); [reflexivity| |exact Hno].
  apply filter_In. split; [exact Hin|].
  now rewrite truthy_strip, Hnb.
Qed.

Lemma malformed_block_aborts_before_any_request_witness :
  let content :=
    py "1\n00:00:00,000 --> 00:00:02,000\nHello\n\nstray line\n\n" in
  py "key" <> []
  /\ In (py "stray line") (split_blocks content)
  /\ is_blank (py "stray line") = false
  /\ ~ In LF (py "stray line")
  /\ translate_srt_file bonjour_monde (Some (py "key")) content
       (py "French") []
     = (Raised IndexError, []).
Proof.
  intros content.
  assert (H1 : py "key" <> []) by discriminate.
  assert (H2 : In (py "stray line") (split_blocks content))
    by (right; left; vm_compute; reflexivity).
  assert (H3 : is_blank (py "stray line") = false)
    by (vm_compute; reflexivity).
  assert (H4 : ~ In LF (py "stray line")).
  { intros Hin.
    assert (Hall : forallb (fun c => negb (c =? LF)%N) (py "stray line")
                   = true) by (vm_compute; reflexivity).
    rewrite forallb_forall in Hall. specialize (Hall _ Hin). discriminate. }
  split; [exact H1|]. split; [exact H2|]. split; [exact H3|].
  split; [exact H4|].
  exact (malformed_block_aborts_before_any_request bonjour_monde (py "key")
           content (py "French") [] (py "stray line") H1 H2 H3 H4).
Defined.

(** * Further properties of the gateway *)

Lemma retrieve_translation_cases
  (backend : nat -> str -> outcome str) (text language api_key : str)
  (w : world) :
  let prompt := user_prompt text language in
  let n := invocations w in
  retrieve_translation backend text language api_key w
  = match backend n prompt with
    | Returned t => (Returned t, w ++ [Invoked prompt (Returned t)])
    | Raised e1 =>
        match backend (n + 1) prompt with
        | Returned t =>
            (Returned t,
             w ++ [Invoked prompt (Raised e1); Slept 1;
                   Invoked prompt (Returned t)])
        | Raised e2 =>
            (backend (n + 2) prompt,
             w ++ [Invoked prompt (Raised e1); Slept 1;
                   Invoked prompt (Raised e2); Slept 1;
                   Invoked prompt (backend (n + 2) prompt)])
        end
    end.
Proof.
  intros prompt n. unfold retrieve_translation. fold prompt.
  destruct (backend n prompt) as [t|e1] eqn:B1.
  - now apply retry_loop_answer.
  - rewrite (retry_loop_again backend 1 prompt e1 w B1).
    assert (N1 : invocations (w ++ [Invoked prompt (Raised e1); Slept 1])
                 = n + 1) by (rewrite invocations_app; reflexivity).
    destruct (backend (n + 1) prompt) as [t|e2] eqn:B2.
    + rewrite (retry_loop_answer backend 1 prompt t); [|now rewrite N1].
      now rewrite <- app_assoc.
    + rewrite (retry_loop_again backend 0 prompt e2); [|now rewrite N1].
      rewrite retry_loop_last, !invocations_app.
      change (invocations [Invoked prompt (Raised e1); Slept 1]) with 1.
      change (invocations [Invoked prompt (Raised e2); Slept 1]) with 1.
      fold n. replace (n + 1 + 1) with (n + 2) by lia.
      now rewrite <- !app_assoc.
Qed.

(** X13. What one call of the gateway does, for any backend: it stops at
    the first invocation that answers, so an answer on the first or second
    invocation costs one or two invocations; after two failures the third
    invocation decides.  It sleeps one unit before each retry, and the
    empty-string return after the loop (line 98) is never reached: the
    outcome is always what the last invocation gave. *)
Theorem retrieve_translation_stops_at_first_answer
  (backend : nat -> str -> outcome str) (text language api_key : str)
  (w : world) :
  let prompt := user_prompt text language in
  let n := invocations w in
  let '(o, w') := retrieve_translation backend text language api_key w in
  exists k,
    k < 3
    /\ o = backend (n + k) prompt
    /\ (forall j, j < k -> exists e, backend (n + j) prompt = Raised e)
    /\ (k < 2 -> exists t, o = Returned t)
    /\ invocations w' = n + k + 1
    /\ slept w' = slept w + k
    /\ exists events, w' = w ++ events /\ last events (Slept 0)
                                          = Invoked prompt o.
Proof.
  intros prompt n.
  pose proof (retrieve_translation_cases backend text language api_key w)
    as E. cbv zeta in E. fold prompt n in E. rewrite E. clear E.
  assert (Hslept : forall a b, slept (a ++ b) = slept a + slept b).
  { induction a as [|[p r|m] a IH]; intros b; simpl; [reflexivity| |];
      rewrite IH; lia. }
  destruct (backend n prompt) as [t|e1] eqn:B1.
  - exists 0. rewrite Nat.add_0_r, B1, invocations_app, Hslept.
    cbn. fold n.
    split; [lia|]. split; [reflexivity|].
    split; [intros j Hj; lia|]. split; [eauto|].
    split; [lia|]. split; [lia|].
    eexists. split; reflexivity.
  - destruct (backend (n + 1) prompt) as [t|e2] eqn:B2.
    + exists 1. rewrite B2, invocations_app, Hslept. cbn. fold n.
      split; [lia|]. split; [reflexivity|].
      split.
      { intros j Hj. assert (j = 0) as -> by lia.
        rewrite Nat.add_0_r. eauto. }
      split; [eauto|]. split; [lia|]. split; [lia|].
      eexists. split; reflexivity.
    + exists 2. rewrite invocations_app, Hslept. cbn. fold n.
      split; [lia|]. split; [reflexivity|].
      split.
      { intros j Hj. assert (j = 0 \/ j = 1) as [-> | ->] by lia;
          [rewrite Nat.add_0_r|]; eauto. }
      split; [intros; lia|]. split; [lia|]. split; [lia|].
      eexists. split; reflexivity.
Qed.

(** ** Requests made by a run *)

Lemma retrieve_translation_invocations
  (backend : nat -> str -> outcome str) (text language api_key : str)
  (w : world) :
  let w' := snd (retrieve_translation backend text language api_key w) in
  invocations w + 1 <= invocations w' <= invocations w + 3.
Proof.
  cbv zeta. rewrite retrieve_translation_cases. cbv zeta.
  destruct (backend (invocations w) _) as [t|e1];
    [|destruct (backend (invocations w + 1) _) as [t|e2]];
    cbn [snd]; rewrite invocations_app; cbn; lia.
Qed.

Lemma translate_groups_invocations
  (backend : nat -> str -> outcome str) (segments : list Segment)
  (target_language api_key : str) (groups : list (list Segment)) :
  forall st w,
    let r := translate_groups backend segments target_language api_key
               groups st w in
    invocations w <= invocations (snd r)
    /\ invocations (snd r) <= invocations w + 3 * length groups
    /\ (forall st', fst r = Returned st' ->
                    invocations w + length groups <= invocations (snd r)).
Proof.
  induction groups as [|group groups IH]; intros st w; cbv zeta.
  - cbn [translate_groups]. unfold ret. cbn [fst snd length].
    split; [lia|]. split; [lia|]. intros st' _. lia.
  - cbn [translate_groups]. unfold bind at 1 2 3 4.
    pose proof (retrieve_translation_invocations backend
                  (join [BAR] (map text group)) target_language api_key w)
      as Hcall. cbv zeta in Hcall.
    destruct (retrieve_translation backend _ target_language api_key w)
      as [[t|e] w1].
    + cbn [snd] in Hcall.
      assert (Hrest : forall st1,
                let r := translate_groups backend segments target_language
                           api_key groups st1 w1 in
                invocations w <= invocations (snd r)
                /\ invocations (snd r)
                   <= invocations w + 3 * length (group :: groups)
                /\ (forall st', fst r = Returned st' ->
                       invocations w + length (group :: groups)
                       <= invocations (snd r))).
      { intros st1. destruct (IH st1 w1) as (H1 & H2 & H3). cbv zeta.
        simpl length. repeat split; try lia.
        intros st' E. specialize (H3 st' E). lia. }
      destruct (negb (truthy t)); apply Hrest.
    + cbn [snd fst] in Hcall |- *. simpl length.
      repeat split; try lia. intros st' [=].
Qed.

Lemma parse_all_length (blocks : list str) (segments : list Segment) :
  parse_all blocks = Returned segments -> length segments = length blocks.
Proof.
  revert segments.
  induction blocks as [|b blocks IH]; intros segments; cbn [parse_all].
  - intros [= <-]. reflexivity.
  - destruct (parse_segment b) as [s|e]; [|discriminate].
    destruct (parse_all blocks) as [ss|e]; [|discriminate].
    intros [= <-]. simpl. now rewrite (IH ss eq_refl).
Qed.

(** The run, stage by stage. *)
Lemma translate_srt_file_cases
  (backend : nat -> str -> outcome str) (env_api_key : option str)
  (content target_language : str) (w : world) :
  translate_srt_file backend env_api_key content target_language w
  = match env_api_key with
    | None | Some [] => (Raised ValueError, w)
    | Some api_key =>
        match parse_all (filter (fun seg => truthy (strip seg))
                           (split_blocks content)) with
        | Raised e => (Raised e, w)
        | Returned segments =>
            match translate_groups backend segments target_language api_key
                    (group_segments_by_token_length segments
                       MAX_TOKENS_IN_SEGMENT) (0, []) w with
            | (Returned st, w') => (Returned (concat (snd st)), w')
            | (Raised e, w') => (Raised e, w')
            end
        end
    end.
Proof.
  unfold translate_srt_file.
  destruct env_api_key as [[|c api_key]|]; reflexivity.
Qed.

(** One call of the gateway only adds events: between one and three
    invocations, three when it raises. *)
Lemma retrieve_translation_appends
  (backend : nat -> str -> outcome str) (text language api_key : str)
  (w : world) :
  let r := retrieve_translation backend text language api_key w in
  exists events,
    snd r = w ++ events
    /\ 1 <= invocations events <= 3
    /\ match fst r with
       | Returned _ => True
       | Raised _ => invocations events = 3
       end.
Proof.
  cbv zeta. rewrite retrieve_translation_cases. cbv zeta.
  destruct (backend (invocations w) _) as [t|e1];
    [|destruct (backend (invocations w + 1) _) as [t|e2];
      [|destruct (backend (invocations w + 2) _) as [t|e3]]];
    cbn [fst snd]; eexists; (split; [reflexivity|]);
    (split; [cbn; lia|]); try exact I; reflexivity.
Qed.

(** The loop over the groups only adds events: at most three invocations
    per group, at least one per group when it returns, and at least three
    when it raises. *)
Lemma translate_groups_appends
  (backend : nat -> str -> outcome str) (segments : list Segment)
  (target_language api_key : str) (groups : list (list Segment)) :
  forall st w,
    let r := translate_groups backend segments target_language api_key
               groups st w in
    exists events,
      snd r = w ++ events
      /\ invocations events <= 3 * length groups
      /\ match fst r with
         | Returned _ => length groups <= invocations events
         | Raised _ => 3 <= invocations events
         end.
Proof.
  induction groups as [|group groups IH]; intros st w; cbv zeta.
  - exists []. cbn [translate_groups]. unfold ret. cbn [fst snd length].
    rewrite app_nil_r. repeat split; cbn; lia.
  - cbn [translate_groups]. unfold bind.
    destruct (retrieve_translation_appends backend
                (join [BAR] (map text group)) target_language api_key w)
      as (ev1 & E1 & B1 & R1).
    destruct (retrieve_translation backend _ target_language api_key w)
      as [[t|e] w1]; cbn [fst snd] in E1, R1; subst w1.
    + assert (Hrest : forall st1,
        let r := translate_groups backend segments target_language api_key
                   groups st1 (w ++ ev1) in
        exists events,
          snd r = w ++ events
          /\ invocations events <= 3 * length (group :: groups)
          /\ match fst r with
             | Returned _ => length (group :: groups) <= invocations events
             | Raised _ => 3 <= invocations events
             end).
      { intros st1. cbv zeta.
        destruct (IH st1 (w ++ ev1)) as (ev2 & E2 & B2 & R2).
        exists (ev1 ++ ev2). rewrite E2, app_assoc, invocations_app.
        split; [reflexivity|]. simpl length. split; [lia|].
        destruct (fst (translate_groups _ _ _ _ _ _ _)); lia. }
      destruct (negb (truthy t)); apply Hrest.
    + exists ev1. cbn [fst snd]. split; [reflexivity|].
      simpl length. split; lia.
Qed.

(** X14. Cost of a run, however it ends: the run only adds events to
    those already recorded.  Without a key, or when a block fails to
    parse, it adds none (the backend is not invoked) and raises
    [ValueError], respectively the parser's exception.  Otherwise it
    invokes the backend at most three times per batch, at least once per
    batch when it returns and at least three times when it raises; in
    every case at most three times the number of non-blank blocks plus
    one. *)
Theorem run_invocations_bounded
  (backend : nat -> str -> outcome str) (env_api_key : option str)
  (content target_language : str) (w : world) :
  let blocks :=
    filter (fun seg => truthy (strip seg)) (split_blocks content) in
  let r := translate_srt_file backend env_api_key content target_language w in
  exists events,
    snd r = w ++ events
    /\ invocations events <= 3 * (length blocks + 1)
    /\ match env_api_key with
       | Some (_ :: _) =>
           match parse_all blocks with
           | Returned segments =>
               let batches :=
                 group_segments_by_token_length segments
                   MAX_TOKENS_IN_SEGMENT in
               invocations events <= 3 * length batches
               /\ match fst r with
                  | Returned _ => length batches <= invocations events
                  | Raised _ => 3 <= invocations events
                  end
           | Raised e => events = [] /\ fst r = Raised e
           end
       | _ => events = [] /\ fst r = Raised ValueError
       end.
Proof.
  cbv zeta. rewrite translate_srt_file_cases.
  destruct env_api_key as [[|c api_key]|].
  - exists []. cbn [fst snd]. rewrite app_nil_r. repeat split. cbn. lia.
  - destruct (parse_all _) as [segments|e] eqn:P.
    + apply parse_all_length in P. rewrite <- P.
      destruct (translate_groups_appends backend segments target_language
                  (c :: api_key)
                  (group_segments_by_token_length segments
                     MAX_TOKENS_IN_SEGMENT) (0, []) w)
        as (events & E & B & R).
      pose proof (batch_count_le segments MAX_TOKENS_IN_SEGMENT) as Hn.
      exists events.
      destruct (translate_groups _ _ _ _ _ _ _) as [[st|e] w1];
        cbn [fst snd] in *; (split; [exact E|]); (split; [lia|]);
        (split; [exact B|exact R]).
    + exists []. cbn [fst snd]. rewrite app_nil_r. repeat split. cbn. lia.
  - exists []. cbn [fst snd]. rewrite app_nil_r. repeat split. cbn. lia.
Qed.






(** X17. When the backend never answers and the file has at least one
    segment, the run raises the failure of the third invocation for the
    first batch: exactly three invocations, no later batch is tried and
    no output is produced. *)
Theorem failing_backend_aborts_run
  (backend : nat -> str -> outcome str) (api_key content : str)
  (target_language : str) (w : world) (segments : list Segment) :
  (forall n prompt, exists e, backend n prompt = Raised e) ->
  api_key <> [] ->
  parse_all (filter (fun seg => truthy (strip seg)) (split_blocks content))
  = Returned segments ->
  segments <> [] ->
  exists e w',
    translate_srt_file backend (Some api_key) content target_language w
    = (Raised e, w')
    /\ invocations w' = invocations w + 3
    /\ returned_texts (skipn (length w) w') = []
    /\ exists group,
         hd_error (group_segments_by_token_length segments
                     MAX_TOKENS_IN_SEGMENT) = Some group
         /\ backend (invocations w + 2)
              (user_prompt (batch_text group) target_language) = Raised e.
Proof.
  intros Hfail Hkey Hparse Hne.
  rewrite translate_srt_file_cases, Hparse.
  destruct api_key as [|c api_key]; [congruence|].
  destruct (group_segments_by_token_length segments MAX_TOKENS_IN_SEGMENT)
    as [|group groups] eqn:G.
  { pose proof (group_segments_concat segments MAX_TOKENS_IN_SEGMENT) as Hc.
    rewrite G in Hc. simpl in Hc. congruence. }
  cbn [translate_groups]. unfold bind at 1.
  fold (batch_text group).
  rewrite retrieve_translation_cases. cbv zeta.
  set (p := user_prompt (batch_text group) target_language).
  destruct (Hfail (invocations w) p) as (e1 & ->).
  destruct (Hfail (invocations w + 1) p) as (e2 & ->).
  destruct (Hfail (invocations w + 2) p) as (e3 & E3). rewrite E3.
  exists e3. eexists. split; [reflexivity|].
  rewrite invocations_app, skipn_past_prefix.
  split; [reflexivity|]. split; [reflexivity|].
  exists group. split; [reflexivity|exact E3].
Qed.

Lemma failing_backend_aborts_run_witness :
  (forall n prompt, exists e, always_fails n prompt = Raised e)
  /\ py "key" <> []
  /\ parse_all (filter (fun seg => truthy (strip seg))
                  (split_blocks example_input))
     = Returned example_segments
  /\ example_segments <> []
  /\ exists e w',
       translate_srt_file always_fails (Some (py "key")) example_input
         (py "French") [] = (Raised e, w')
       /\ invocations w' = invocations [] + 3
       /\ returned_texts (skipn (length (@nil event)) w') = []
       /\ exists group,
            hd_error (group_segments_by_token_length example_segments
                        MAX_TOKENS_IN_SEGMENT) = Some group
            /\ always_fails (invocations [] + 2)
                 (user_prompt (batch_text group) (py "French")) = Raised e.
Proof.
  assert (H1 : forall n prompt, exists e, always_fails n prompt = Raised e)
    by (intros n prompt; eexists; reflexivity).
  assert (H2 : py "key" <> []) by discriminate.
  assert (H3 : parse_all (filter (fun seg => truthy (strip seg))
                            (split_blocks example_input))
               = Returned example_segments) by (vm_compute; reflexivity).
  assert (H4 : example_segments <> []) by discriminate.
  split; [exact H1|]. split; [exact H2|]. split; [exact H3|].
  split; [exact H4|].
  exact (failing_backend_aborts_run always_fails (py "key") example_input
           (py "French") [] example_segments H1 H2 H3 H4).
Defined.

(** * Further properties of the reconciler *)

Lemma split_char_piece (sep : N) (p rest : str) :
  ~ In sep p ->
  split_char sep (p ++ sep :: rest) = p :: split_char sep rest.
Proof.
  induction p as [|c p IH]; intros Hno; cbn [app split_char].
  - now rewrite N.eqb_refl.
  - destruct (N.eqb_spec c sep) as [->|Hc]; [exfalso; apply Hno; now left|].
    rewrite IH; [reflexivity|]. intros H. apply Hno. now right.
Qed.

Lemma split_char_join (sep : N) (parts : list str) :
  parts <> [] ->
  Forall (fun p => ~ In sep p) parts ->
  split_char sep (join [sep] parts) = parts.
Proof.
  intros Hne Hall. revert Hne.
  induction Hall as [|p parts Hp Hall IH]; intros Hne; [now elim Hne|].
  destruct parts as [|q parts].
  - simpl. now apply split_char_single.
  - rewrite join_cons2. cbn [app]. rewrite split_char_piece by exact Hp.
    f_equal. apply IH. discriminate.
Qed.

Lemma split_char_length (sep : N) (s : str) :
  length (split_char sep s) = S (count_occ N.eq_dec s sep).
Proof.
  induction s as [|c s IH]; [reflexivity|].
  cbn [split_char count_occ].
  destruct (N.eqb_spec c sep) as [->|Hc].
  - destruct (N.eq_dec sep sep); [|congruence]. simpl. now rewrite IH.
  - destruct (N.eq_dec c sep); [congruence|].
    destruct (split_char sep s); simpl in *; [discriminate|exact IH].
Qed.

(** X18. The delimiter convention of a request: the text sent for a
    non-empty batch whose segment texts hold no bar splits back, on the
    bar, into exactly those texts, one fragment per segment. *)
Theorem batch_text_splits_back (group : list Segment) :
  group <> [] ->
  Forall (fun s => ~ In BAR (text s)) group ->
  split_char BAR (batch_text group) = map text group
  /\ length (split_char BAR (batch_text group)) = length group.
Proof.
  intros Hne Hall.
  assert (E : split_char BAR (batch_text group) = map text group).
  { unfold batch_text. apply split_char_join.
    - destruct group; [congruence|discriminate].
    - apply Forall_map. exact Hall. }
  split; [exact E|]. now rewrite E, length_map.
Qed.

Lemma batch_text_splits_back_witness :
  example_segments <> []
  /\ Forall (fun s => ~ In BAR (text s)) example_segments
  /\ split_char BAR (batch_text example_segments)
     = map text example_segments
  /\ length (split_char BAR (batch_text example_segments))
     = length example_segments.
Proof.
  assert (Hne : example_segments <> []) by discriminate.
  assert (Hfree : forall l : str,
             forallb (fun c => negb (c =? BAR)%N) l = true -> ~ In BAR l).
  { intros l H Hin. rewrite forallb_forall in H.
    specialize (H _ Hin). discriminate. }
  assert (Hall : Forall (fun s => ~ In BAR (text s)) example_segments).
  { constructor; [apply Hfree; vm_compute; reflexivity|].
    constructor; [apply Hfree; vm_compute; reflexivity|].
    constructor. }
  split; [exact Hne|]. split; [exact Hall|].
  exact (batch_text_splits_back example_segments Hne Hall).
Defined.

(** ** Timestamps of the units *)

Lemma skipn_nth_error {A} (l : list A) (i : nat) (x : A) :
  nth_error l i = Some x -> skipn i l = x :: skipn (S i) l.
Proof.
  revert i. induction l as [|a l IH]; intros [|i]; simpl; try discriminate.
  - now intros [= ->].
  - intros H. rewrite (IH i H). reflexivity.
Qed.

Lemma timestamp_at_seq (segments : list Segment) (n : nat) :
  forall idx,
    map (timestamp_at segments) (seq (idx + 1) n)
    = map timestamp (firstn n (skipn idx segments))
      ++ repeat [] (n - (length segments - idx)).
Proof.
  induction n as [|n IH]; intros idx; [reflexivity|].
  cbn [seq map]. replace (S (idx + 1)) with (S idx + 1) by lia.
  rewrite IH. unfold timestamp_at.
  replace (idx + 1 - 1) with idx by lia.
  destruct (nth_error segments idx) as [x|] eqn:E.
  - assert (Hlt : idx < length segments)
      by (apply nth_error_Some; congruence).
    destruct (Nat.ltb_spec (length segments) (idx + 1)); [lia|].
    rewrite (skipn_nth_error segments idx x E). cbn [firstn map app].
    do 2 f_equal. f_equal. lia.
  - assert (Hge : length segments <= idx) by (now apply nth_error_None).
    rewrite !skipn_all2 by lia. rewrite !firstn_nil. cbn [map app].
    destruct (Nat.ltb_spec (length segments) (idx + 1)).
    + replace (S n - (length segments - idx)) with (S n) by lia.
      replace (n - (length segments - S idx)) with n by lia.
      reflexivity.
    + lia.
Qed.

Lemma reconcile_units_timestamps (segments : list Segment)
  (fragments : list str) :
  forall running_index,
    map out_timestamp (reconcile_units segments running_index fragments)
    = map (timestamp_at segments)
        (seq (running_index + 1) (nonblank_count fragments)).
Proof.
  unfold nonblank_count.
  induction fragments as [|f fragments IH]; intros idx;
    cbn [reconcile_units filter]; [reflexivity|].
  destruct (is_blank f); cbn [negb length seq map out_timestamp].
  - apply IH.
  - rewrite IH. replace (idx + 1 + 1) with (S (idx + 1)) by lia.
    reflexivity.
Qed.

(** X19. Timing of the output of a run that returns: the k-th emitted
    unit carries the timestamp of the k-th parsed segment of the whole
    file, whichever batch its fragment came back in.  With [n] non-blank
    fragments returned in total, the timestamps are those of the first
    [n] segments followed by an empty timestamp for every fragment beyond
    the number of segments; with exactly as many fragments as segments
    they are the original timestamps in order. *)
Theorem run_timestamps_by_position
  (backend : nat -> str -> outcome str)
  (env_api_key : option str) (content target_language : str)
  (w : world) (result : str) (w' : world) (segments : list Segment) :
  parse_all (filter (fun seg => truthy (strip seg)) (split_blocks content))
  = Returned segments ->
  translate_srt_file backend env_api_key content target_language w
  = (Returned result, w') ->
  let fragments := fragments_of (skipn (length w) w') in
  let units := reconcile_units segments 0 fragments in
  let n := nonblank_count fragments in
  result = concat (map render units)
  /\ map out_timestamp units
     = map timestamp (firstn n segments) ++ repeat [] (n - length segments)
  /\ (n = length segments -> map out_timestamp units = map timestamp segments).
Proof.
  intros Hparse Hrun fragments units n.
  destruct (run_output backend env_api_key content target_language w
              result w' Hrun) as (segments' & Hparse' & Hres & _ & _).
  rewrite Hparse in Hparse'. injection Hparse' as <-.
  split; [exact Hres|].
  assert (E : map out_timestamp units
              = map timestamp (firstn n segments)
                ++ repeat [] (n - length segments)).
  { unfold units. rewrite reconcile_units_timestamps.
    fold n. rewrite (timestamp_at_seq segments n 0).
    rewrite skipn_O, Nat.sub_0_r. reflexivity. }
  split; [exact E|].
  intros Hn. rewrite E, Hn, firstn_all, Nat.sub_diag, app_nil_r.
  reflexivity.
Qed.

Lemma run_timestamps_by_position_witness :
  let w' := [Invoked (user_prompt (py "Hello|World") (py "French"))
               (Returned (py "Bonjour|Monde"))] in
  let fragments := fragments_of (skipn (length (@nil event)) w') in
  let units := reconcile_units example_segments 0 fragments in
  let n := nonblank_count fragments in
  (parse_all (filter (fun seg => truthy (strip seg))
                (split_blocks example_input))
   = Returned example_segments
   /\ translate_srt_file bonjour_monde (Some (py "key")) example_input
        (py "French") [] = (Returned example_output, w'))
  /\ (example_output = concat (map render units)
      /\ map out_timestamp units
         = map timestamp (firstn n example_segments)
           ++ repeat [] (n - length example_segments)
      /\ (n = length example_segments ->
          map out_timestamp units = map timestamp example_segments)).
Proof.
  intros w' fragments units n.
  assert (H1 : parse_all (filter (fun seg => truthy (strip seg))
                            (split_blocks example_input))
               = Returned example_segments) by (vm_compute; reflexivity).
  assert (H2 : translate_srt_file bonjour_monde (Some (py "key"))
                 example_input (py "French") []
               = (Returned example_output, w')) by (vm_compute; reflexivity).
  split; [split; [exact H1|exact H2]|].
  exact (run_timestamps_by_position bonjour_monde (Some (py "key"))
           example_input (py "French") [] example_output w'
           example_segments H1 H2).
Defined.

(** ** Texts of the units *)

Lemma lstrip_split (s : str) :
  exists v, s = v ++ lstrip s /\ is_blank v = true.
Proof.
  induction s as [|c s (v & E & B)]; [exists []; now split|].
  cbn [lstrip]. destruct (is_space c) eqn:C.
  - exists (c :: v). split; [simpl; now rewrite <- E|].
    unfold is_blank in *. simpl. now rewrite C.
  - exists []. now split.
Qed.

Lemma lstrip_fixed (c : N) (s : str) :
  is_space c = false -> lstrip (c :: s) = c :: s.
Proof.
  intros C. cbn [lstrip]. now rewrite C.
Qed.

(** A non-empty result of [strip] starts and ends with a character that
    is not whitespace. *)
Lemma strip_shape (s : str) :
  strip s = []
  \/ exists c t d u,
       strip s = c :: t /\ is_space c = false
       /\ rev (strip s) = d :: u /\ is_space d = false.
Proof.
  unfold strip, rstrip.
  destruct (is_blank s) eqn:B.
  - left. now rewrite (lstrip_blank s B).
  - right.
    destruct (lstrip_not_blank s B) as (c & s' & E & Hc). rewrite E.
    assert (Hb : is_blank (rev (c :: s')) = false).
    { rewrite is_blank_rev. unfold is_blank. simpl. now rewrite Hc. }
    destruct (lstrip_not_blank _ Hb) as (d & u & E' & Hd).
    destruct (lstrip_split (rev (c :: s'))) as (v & Ev & Bv).
    rewrite E' in *. rewrite rev_involutive.
    assert (Ecs : c :: s' = rev (d :: u) ++ rev v).
    { rewrite <- rev_app_distr, <- Ev. now rewrite rev_involutive. }
    destruct (rev (d :: u)) as [|c' t'] eqn:R.
    + apply (f_equal (@length N)) in R. rewrite length_rev in R.
      simpl in R. lia.
    + simpl in Ecs. injection Ecs as <- _.
      exists c, t', d, u. repeat split; assumption.
Qed.

Lemma strip_idempotent (s : str) : strip (strip s) = strip s.
Proof.
  destruct (strip_shape s) as [E|(c & t & d & u & E & Hc & R & Hd)].
  - rewrite E. reflexivity.
  - unfold strip at 1, rstrip. rewrite E, (lstrip_fixed c t Hc).
    rewrite <- E, R, (lstrip_fixed d u Hd), <- R.
    apply rev_involutive.
Qed.

Lemma reconcile_units_texts (segments : list Segment)
  (fragments : list str) :
  forall running_index,
    Forall (fun u => out_text u <> []
                     /\ strip (out_text u) = out_text u
                     /\ exists f, In f fragments /\ out_text u = strip f)
      (reconcile_units segments running_index fragments).
Proof.
  induction fragments as [|f fragments IH]; intros idx;
    cbn [reconcile_units]; [constructor|].
  assert (Hweak : forall i,
    Forall (fun u => out_text u <> []
                     /\ strip (out_text u) = out_text u
                     /\ exists f0, In f0 (f :: fragments)
                                   /\ out_text u = strip f0)
      (reconcile_units segments i fragments)).
  { intros i. eapply Forall_impl; [|apply (IH i)].
    intros u (H1 & H2 & f0 & Hin & E). repeat split; try assumption.
    exists f0. split; [now right|exact E]. }
  destruct (is_blank f) eqn:B; [apply Hweak|].
  constructor; [|apply Hweak]. cbn [out_text].
  split; [|split].
  - intros E. apply strip_nil_iff in E. congruence.
  - apply strip_idempotent.
  - exists f. split; [now left|reflexivity].
Qed.

(** X20. Texts of the output of a run that returns: every emitted unit
    carries a fragment of a returned text with the surrounding whitespace
    removed; it is never empty and never starts or ends with whitespace
    (trimming it again changes nothing). *)
Theorem run_texts_trimmed
  (backend : nat -> str -> outcome str)
  (env_api_key : option str) (content target_language : str)
  (w : world) (result : str) (w' : world) (segments : list Segment) :
  parse_all (filter (fun seg => truthy (strip seg)) (split_blocks content))
  = Returned segments ->
  translate_srt_file backend env_api_key content target_language w
  = (Returned result, w') ->
  let fragments := fragments_of (skipn (length w) w') in
  let units := reconcile_units segments 0 fragments in
  result = concat (map render units)
  /\ Forall (fun u => out_text u <> []
                      /\ strip (out_text u) = out_text u
                      /\ exists f, In f fragments /\ out_text u = strip f)
       units.
Proof.
  intros Hparse Hrun fragments units.
  destruct (run_output backend env_api_key content target_language w
              result w' Hrun) as (segments' & Hparse' & Hres & _ & _).
  rewrite Hparse in Hparse'. injection Hparse' as <-.
  split; [exact Hres|apply reconcile_units_texts].
Qed.

Lemma run_texts_trimmed_witness :
  let w' := [Invoked (user_prompt (py "Hello|World") (py "French"))
               (Returned (py "  Bonjour | Monde\t|"))] in
  let fragments := fragments_of (skipn (length (@nil event)) w') in
  let units := reconcile_units example_segments 0 fragments in
  (parse_all (filter (fun seg => truthy (strip seg))
                (split_blocks example_input))
   = Returned example_segments
   /\ translate_srt_file padded_answer (Some (py "key")) example_input
        (py "French") [] = (Returned example_output, w'))
  /\ (example_output = concat (map render units)
      /\ Forall (fun u => out_text u <> []
                          /\ strip (out_text u) = out_text u
                          /\ exists f, In f fragments
                                       /\ out_text u = strip f)
           units).
Proof.
  intros w' fragments units.
  assert (H1 : parse_all (filter (fun seg => truthy (strip seg))
                            (split_blocks example_input))
               = Returned example_segments) by (vm_compute; reflexivity).
  assert (H2 : translate_srt_file padded_answer (Some (py "key"))
                 example_input (py "French") []
               = (Returned example_output, w')) by (vm_compute; reflexivity).
  split; [split; [exact H1|exact H2]|].
  exact (run_texts_trimmed padded_answer (Some (py "key"))
           example_input (py "French") [] example_output w'
           example_segments H1 H2).
Defined.

(** ** A backend that answers one fragment per segment *)

Lemma reconcile_units_filter (segments : list Segment)
  (fragments : list str) :
  forall running_index,
    reconcile_units segments running_index fragments
    = reconcile_units segments running_index
        (filter (fun f => negb (is_blank f)) fragments).
Proof.
  induction fragments as [|f fragments IH]; intros idx;
    cbn [reconcile_units filter]; [reflexivity|].
  destruct (is_blank f) eqn:B; cbn [negb].
  - apply IH.
  - cbn [reconcile_units]. rewrite B. f_equal. apply IH.
Qed.

Lemma filter_all {A} (f : A -> bool) (l : list A) :
  Forall (fun x => f x = true) l -> filter f l = l.
Proof.
  induction 1 as [|x l Hx _ IH]; simpl; [reflexivity|].
  now rewrite Hx, IH.
Qed.

(** The non-blank fragments of the request texts of the batches are the
    texts of the segments, when no text is blank or holds a bar. *)
Lemma nonblank_fragments_of_batches (groups : list (list Segment)) :
  Forall (fun s => is_blank (text s) = false /\ ~ In BAR (text s))
    (concat groups) ->
  filter (fun f => negb (is_blank f))
    (concat (map (fun g => split_char BAR (batch_text g)) groups))
  = map text (concat groups).
Proof.
  induction groups as [|g groups IH]; intros Hall; [reflexivity|].
  cbn [map concat] in *. apply Forall_app in Hall. destruct Hall as [Hg Hrest].
  rewrite filter_app, map_app, (IH Hrest). f_equal.
  destruct g as [|s g]; [reflexivity|].
  unfold batch_text. rewrite split_char_join.
  - apply filter_all. apply Forall_map.
    eapply Forall_impl; [|exact Hg]. intros x [B _]. now rewrite B.
  - discriminate.
  - apply Forall_map. eapply Forall_impl; [|exact Hg]. now intros x [_ H].
Qed.

Lemma skipn_cons_inv {A} (l : list A) (i : nat) (x : A) (l' : list A) :
  skipn i l = x :: l' -> nth_error l i = Some x /\ skipn (S i) l = l'.
Proof.
  revert i. induction l as [|a l IH]; intros [|i]; simpl; try discriminate.
  - intros [= -> ->]. now split.
  - intros H. apply (IH i H).
Qed.

Lemma reconcile_units_of_texts (segments : list Segment) :
  forall (l : list Segment) (idx : nat),
    skipn idx segments = l ->
    Forall (fun s => is_blank (text s) = false) l ->
    reconcile_units segments idx (map text l)
    = units_of_segments (idx + 1) l.
Proof.
  unfold units_of_segments.
  induction l as [|s l IH]; intros idx Hskip Hall; [reflexivity|].
  inversion Hall as [|? ? Hs Hl]; subst.
  destruct (skipn_cons_inv segments idx s l Hskip) as [Hnth Hskip'].
  cbn [map reconcile_units length seq combine fst snd]. rewrite Hs.
  f_equal.
  - f_equal. unfold timestamp_at.
    assert (Hlt : idx < length segments)
      by (apply nth_error_Some; congruence).
    destruct (Nat.ltb_spec (length segments) (idx + 1)); [lia|].
    replace (idx + 1 - 1) with idx by lia. now rewrite Hnth.
  - rewrite (IH (idx + 1)).
    + replace (idx + 1 + 1) with (S (idx + 1)) by lia. reflexivity.
    + replace (idx + 1) with (S idx) by lia. exact Hskip'.
    + exact Hl.
Qed.

Lemma echo_groups
  (backend : nat -> str -> outcome str) (segments : list Segment)
  (target_language api_key : str) (groups : list (list Segment)) :
  (forall n t, backend n (user_prompt t target_language) = Returned t) ->
  forall st w,
    exists w',
      translate_groups backend segments target_language api_key groups st w
      = (Returned
           (fold_left (reconcile segments)
              (concat (map (fun g => split_char BAR (batch_text g)) groups))
              st), w')
      /\ invocations w' = invocations w + length groups.
Proof.
  intros Hecho.
  induction groups as [|g groups IH]; intros st w.
  - exists w. split; [reflexivity|simpl; lia].
  - cbn [translate_groups map concat]. unfold bind at 1.
    fold (batch_text g).
    rewrite retrieve_translation_cases. cbv zeta. rewrite Hecho.
    rewrite fold_left_app.
    set (w1 := w ++ [Invoked (user_prompt (batch_text g) target_language)
                       (Returned (batch_text g))]).
    assert (N1 : invocations w1 = invocations w + 1)
      by (unfold w1; rewrite invocations_app; reflexivity).
    destruct (batch_text g) as [|c t] eqn:T; cbn [truthy negb].
    + destruct (IH st w1) as (w' & E & Hn).
      exists w'. rewrite fold_reconcile_blank by reflexivity.
      split; [exact E|]. simpl length. lia.
    + destruct (IH (fold_left (reconcile segments) (split_char BAR (c :: t))
                      st) w1) as (w' & E & Hn).
      exists w'. split; [exact E|]. simpl length. lia.
Qed.

Lemma echo_answers (target_language : str) (n : nat) (t : str) :
  echo target_language n (user_prompt t target_language) = Returned t.
Proof.
  unfold echo, user_prompt. f_equal.
  rewrite app_nil_r, !app_assoc. apply skipn_past_prefix.
Qed.

Lemma identity_translation_run
  (backend : nat -> str -> outcome str) (api_key content : str)
  (target_language : str) (w : world) (segments : list Segment) :
  (forall n t, backend n (user_prompt t target_language) = Returned t) ->
  api_key <> [] ->
  parse_all (filter (fun seg => truthy (strip seg)) (split_blocks content))
  = Returned segments ->
  Forall (fun s => is_blank (text s) = false /\ ~ In BAR (text s)) segments ->
  exists w',
    translate_srt_file backend (Some api_key) content target_language w
    = (Returned (concat (map render (units_of_segments 1 segments))), w')
    /\ invocations w'
       = invocations w
         + length (group_segments_by_token_length segments
                     MAX_TOKENS_IN_SEGMENT).
Proof.
  intros Hecho Hkey Hparse Hall.
  rewrite translate_srt_file_cases, Hparse.
  destruct api_key as [|c api_key]; [congruence|].
  destruct (echo_groups backend segments target_language (c :: api_key)
              (group_segments_by_token_length segments MAX_TOKENS_IN_SEGMENT)
              Hecho (0, []) w) as (w' & E & Hn).
  rewrite E. exists w'. split; [|exact Hn].
  rewrite fold_reconcile. cbn [snd app].
  rewrite reconcile_units_filter, nonblank_fragments_of_batches;
    rewrite group_segments_concat; [|exact Hall].
  rewrite (reconcile_units_of_texts segments segments 0).
  - reflexivity.
  - reflexivity.
  - eapply Forall_impl; [|exact Hall]. now intros s [B _].
Qed.

(** X21. With a backend that answers every request with one fragment per
    segment, here the texts themselves, and segments whose texts are not
    blank and hold no bar, the run returns one unit per segment, numbered
    from 1, each with its own segment's timestamp and trimmed text, and
    invokes the backend once per batch. *)
Theorem identity_translation_keeps_segments
  (backend : nat -> str -> outcome str) (api_key content : str)
  (target_language : str) (w : world) (segments : list Segment) :
  (forall n t, backend n (user_prompt t target_language) = Returned t) ->
  api_key <> [] ->
  parse_all (filter (fun seg => truthy (strip seg)) (split_blocks content))
  = Returned segments ->
  Forall (fun s => is_blank (text s) = false /\ ~ In BAR (text s)) segments ->
  exists w',
    translate_srt_file backend (Some api_key) content target_language w
    = (Returned (concat (map render (units_of_segments 1 segments))), w')
    /\ invocations w'
       = invocations w
         + length (group_segments_by_token_length segments
                     MAX_TOKENS_IN_SEGMENT).
Proof.
  apply identity_translation_run.
Qed.

Lemma identity_translation_keeps_segments_witness :
  (forall n t, echo (py "French") n (user_prompt t (py "French"))
               = Returned t)
  /\ py "key" <> []
  /\ parse_all (filter (fun seg => truthy (strip seg))
                  (split_blocks example_input))
     = Returned example_segments
  /\ Forall (fun s => is_blank (text s) = false /\ ~ In BAR (text s))
       example_segments
  /\ exists w',
       translate_srt_file (echo (py "French")) (Some (py "key"))
         example_input (py "French") []
       = (Returned (concat (map render
                              (units_of_segments 1 example_segments))), w')
       /\ invocations w'
          = invocations []
            + length (group_segments_by_token_length example_segments
                        MAX_TOKENS_IN_SEGMENT).
Proof.
  assert (H1 : forall n t, echo (py "French") n (user_prompt t (py "French"))
                           = Returned t)
    by (intros n t; apply echo_answers).
  assert (H2 : py "key" <> []) by discriminate.
  assert (H3 : parse_all (filter (fun seg => truthy (strip seg))
                            (split_blocks example_input))
               = Returned example_segments) by (vm_compute; reflexivity).
  assert (Hfree : forall l : str,
             forallb (fun c => negb (c =? BAR)%N) l = true -> ~ In BAR l).
  { intros l H Hin. rewrite forallb_forall in H.
    specialize (H _ Hin). discriminate. }
  assert (H4 : Forall (fun s => is_blank (text s) = false
                                /\ ~ In BAR (text s)) example_segments).
  { constructor;
      [split; [vm_compute; reflexivity
              |apply Hfree; vm_compute; reflexivity]|].
    constructor;
      [split; [vm_compute; reflexivity
              |apply Hfree; vm_compute; reflexivity]|].
    constructor. }
  split; [exact H1|]. split; [exact H2|]. split; [exact H3|].
  split; [exact H4|].
  exact (identity_translation_keeps_segments (echo (py "French")) (py "key")
           example_input (py "French") [] example_segments H1 H2 H3 H4).
Defined.

(** * Properties of the output path *)

Lemma splitext_joins (path : str) :
  fst (splitext path) ++ snd (splitext path) = path.
Proof.
  unfold splitext.
  destruct (rfind DOT path) as [d|]; [|apply app_nil_r].
  destruct (_ && _); [apply firstn_skipn|apply app_nil_r].
Qed.

(** X22. The path the result is written to: a non-empty [-o] path is
    used as it is; otherwise the path is the input path with a dot and
    the language inserted between the two parts [splitext] gives, so it
    is longer than the input path and never the input file itself. *)
Theorem default_output_never_the_input (file language : str)
  (output : option str) :
  match output with
  | Some (c :: o) => chosen_output_path file language output = c :: o
  | _ =>
      chosen_output_path file language output
      = fst (splitext file) ++ [DOT] ++ language ++ snd (splitext file)
      /\ fst (splitext file) ++ snd (splitext file) = file
      /\ length (chosen_output_path file language output)
         = length file + 1 + length language
      /\ chosen_output_path file language output <> file
  end.
Proof.
  assert (Hdefault :
    default_output_path file language
    = fst (splitext file) ++ [DOT] ++ language ++ snd (splitext file)
    /\ fst (splitext file) ++ snd (splitext file) = file
    /\ length (default_output_path file language)
       = length file + 1 + length language
    /\ default_output_path file language <> file).
  { assert (E : default_output_path file language
                = fst (splitext file) ++ [DOT] ++ language
                  ++ snd (splitext file))
      by (unfold default_output_path; destruct (splitext file); reflexivity).
    pose proof (splitext_joins file) as J.
    assert (L : length (default_output_path file language)
                = length file + 1 + length language).
    { rewrite E, !length_app.
      pose proof (f_equal (@length N) J) as JL. rewrite length_app in JL.
      simpl. lia. }
    repeat split; try assumption.
    intros Heq. rewrite Heq in L. lia. }
  destruct output as [[|c o]|]; [exact Hdefault|reflexivity|exact Hdefault].
Qed.

Lemma rfind_from_absent (c : N) (s : str) :
  ~ In c s -> forall i found, rfind_from c s i found = found.
Proof.
  induction s as [|x s IH]; intros Hno i found; [reflexivity|].
  cbn [rfind_from].
  destruct (N.eqb_spec x c) as [->|_]; [exfalso; apply Hno; now left|].
  apply IH. intros H. apply Hno. now right.
Qed.

Lemma rfind_from_last (c : N) (a b : str) :
  ~ In c b ->
  forall i found,
    rfind_from c (a ++ c :: b) i found = Some (i + length a).
Proof.
  intros Hno. induction a as [|x a IH]; intros i found.
  - cbn [app rfind_from length]. rewrite N.eqb_refl.
    rewrite rfind_from_absent by exact Hno. f_equal. lia.
  - cbn [app rfind_from length]. rewrite IH. f_equal. lia.
Qed.

(** X23. For an ordinary file name, the language goes in front of the
    extension: with a directory part that is empty or ends with a slash,
    a name that starts with a character other than a dot and contains no
    slash, and an extension without dot and slash, the default output
    path of [dir name . ext] is [dir name . language . ext]. *)
Theorem default_output_inserts_language
  (dir : str) (c : N) (name ext language : str) :
  (dir = [] \/ exists d, dir = d ++ [SLASH]) ->
  c <> DOT -> c <> SLASH ->
  ~ In SLASH name -> ~ In SLASH ext -> ~ In DOT ext ->
  default_output_path (dir ++ (c :: name) ++ [DOT] ++ ext) language
  = dir ++ (c :: name) ++ [DOT] ++ language ++ [DOT] ++ ext.
Proof.
  intros Hdir Hc Hcs Hname Hext Hdot.
  set (path := dir ++ (c :: name) ++ [DOT] ++ ext).
  assert (Hd : rfind DOT path = Some (length dir + S (length name))).
  { unfold rfind, path.
    replace (dir ++ (c :: name) ++ [DOT] ++ ext)
      with ((dir ++ c :: name) ++ DOT :: ext)
      by (now rewrite <- app_assoc).
    rewrite rfind_from_last by exact Hdot.
    f_equal. rewrite length_app. simpl. lia. }
  assert (Hrest : ~ In SLASH ((c :: name) ++ [DOT] ++ ext)).
  { intros H. apply in_app_or in H. destruct H as [[H|H]|H].
    - now apply Hcs.
    - now apply Hname.
    - destruct H as [H|H]; [discriminate|now apply Hext]. }
  assert (Hs : match rfind SLASH path with
               | None => 0
               | Some sepIndex => S sepIndex
               end = length dir).
  { unfold rfind, path. destruct Hdir as [->|(d & ->)].
    - cbn [app]. rewrite rfind_from_absent; [reflexivity|].
      exact Hrest.
    - rewrite <- app_assoc. cbn [app].
      rewrite rfind_from_last by exact Hrest.
      rewrite length_app. simpl. lia. }
  unfold default_output_path, splitext. fold path. rewrite Hd, Hs.
  assert (Hle : (length dir <=? length dir + S (length name)) = true)
    by (apply Nat.leb_le; lia).
  rewrite Hle.
  replace (length dir + S (length name) - length dir)
    with (S (length name)) by lia.
  cbn [name_before_dot andb].
  assert (Hnth : nth (length dir) path DOT = c).
  { unfold path. rewrite app_nth2 by lia. now rewrite Nat.sub_diag. }
  rewrite Hnth.
  destruct (N.eqb_spec c DOT) as [->|_]; [congruence|]. cbn [negb].
  assert (Hsplit : path = (dir ++ c :: name) ++ DOT :: ext)
    by (unfold path; now rewrite <- app_assoc).
  assert (Hlen : length dir + S (length name) = length (dir ++ c :: name))
    by (rewrite length_app; reflexivity).
  rewrite Hlen, Hsplit, firstn_app, skipn_app, firstn_all, skipn_all,
    Nat.sub_diag.
  cbn [firstn skipn app]. rewrite app_nil_r, <- !app_assoc. reflexivity.
Qed.

Lemma default_output_inserts_language_witness :
  default_output_path (py "subs/" ++ py "movie.en" ++ [DOT] ++ py "srt")
    (py "fr")
  = py "subs/" ++ py "movie.en" ++ [DOT] ++ py "fr" ++ [DOT] ++ py "srt".
Proof.
  assert (Hfree : forall (x : N) (l : str),
             forallb (fun c => negb (c =? x)%N) l = true -> ~ In x l).
  { intros x l H Hin. rewrite forallb_forall in H.
    specialize (H _ Hin). now rewrite N.eqb_refl in H. }
  exact (default_output_inserts_language (py "subs/") 109%N (py "ovie.en")
           (py "srt") (py "fr")
           (or_intror (ex_intro _ (py "subs") eq_refl))
           ltac:(discriminate) ltac:(discriminate)
           (Hfree SLASH (py "ovie.en") eq_refl)
           (Hfree SLASH (py "srt") eq_refl)
           (Hfree DOT (py "srt") eq_refl)).
Defined.

(** * Reading the output back *)

Lemma uint_codes_digits (u : Decimal.uint) :
  Forall (fun c => (48 <= c <= 57)%N) (uint_codes u).
Proof.
  induction u; cbn [uint_codes]; constructor; try assumption; lia.
Qed.

Lemma to_uint_not_nil (n : nat) : Nat.to_uint n <> Decimal.Nil.
Proof.
  rewrite <- (DecimalNat.Unsigned.of_to n) at 1.
  rewrite DecimalNat.Unsigned.to_of.
  apply DecimalFacts.unorm_nonnil.
Qed.

Lemma format_nat_cons (n : nat) :
  exists c ds, format_nat n = c :: ds /\ (48 <= c <= 57)%N.
Proof.
  unfold format_nat. pose proof (to_uint_not_nil n) as Hn.
  pose proof (uint_codes_digits (Nat.to_uint n)) as Hd.
  destruct (Nat.to_uint n); [congruence|..]; cbn [uint_codes] in *;
    inversion Hd; subst; eauto.
Qed.

Lemma parse_digits_uint (u : Decimal.uint) :
  forall (b : bool) (acc : nat),
    b = true \/ u <> Decimal.Nil ->
    parse_digits b (Z.of_nat acc) (uint_codes u)
    = Some (Z.of_nat (Nat.of_uint_acc u acc)).
Proof.
  induction u; intros b acc Hb;
    [destruct Hb as [->|Hb]; [reflexivity|congruence]|..];
    cbn [uint_codes parse_digits Nat.of_uint_acc];
    unfold digit_value; cbn [N.leb N.compare Pos.compare Pos.compare_cont
                              andb];
    match goal with
    | |- parse_digits true ?z _ = Some (Z.of_nat (Nat.of_uint_acc _ ?a)) =>
        replace z with (Z.of_nat a)
          by (rewrite ?Nat.tail_mul_spec; cbn [Z.of_N]; lia)
    end;
    apply IHu; now left.
Qed.

Lemma strip_no_space (s : str) :
  Forall (fun c => is_space c = false) s -> strip s = s.
Proof.
  intros Hall. unfold strip, rstrip.
  destruct s as [|c t]; [reflexivity|].
  inversion Hall as [|? ? Hc Ht]; subst.
  rewrite (lstrip_fixed c t Hc).
  destruct (rev (c :: t)) as [|d u] eqn:R.
  - apply (f_equal (@length N)) in R. rewrite length_rev in R.
    simpl in R. lia.
  - assert (Hd : is_space d = false).
    { rewrite Forall_forall in Hall. apply Hall. apply in_rev.
      rewrite R. now left. }
    rewrite (lstrip_fixed d u Hd), <- R. apply rev_involutive.
Qed.

Lemma lstrip_ascii_fixed (c : N) (s : str) :
  is_ascii_space c = false -> lstrip_ascii (c :: s) = c :: s.
Proof.
  intros C. cbn [lstrip_ascii]. now rewrite C.
Qed.

Lemma strip_ascii_no_space (s : str) :
  Forall (fun c => is_ascii_space c = false) s -> strip_ascii s = s.
Proof.
  intros Hall. unfold strip_ascii.
  destruct s as [|c t]; [reflexivity|].
  inversion Hall as [|? ? Hc Ht]; subst.
  rewrite (lstrip_ascii_fixed c t Hc).
  destruct (rev (c :: t)) as [|d u] eqn:R.
  - apply (f_equal (@length N)) in R. rewrite length_rev in R.
    simpl in R. lia.
  - assert (Hd : is_ascii_space d = false).
    { rewrite Forall_forall in Hall. apply Hall. apply in_rev.
      rewrite R. now left. }
    rewrite (lstrip_ascii_fixed d u Hd), <- R. apply rev_involutive.
Qed.

Lemma digit_facts (c : N) :
  (48 <= c <= 57)%N ->
  to_ascii c = c
  /\ is_ascii_space c = false
  /\ ((48 <=? c) && (c <=? 57))%N = true
  /\ ((c =? 43) || (c =? 45))%N = false
  /\ (c =? 45)%N = false.
Proof.
  intros Hc. unfold to_ascii, is_ascii_space.
  destruct (N.ltb_spec c 127); [|lia].
  destruct (N.leb_spec 9 c); [|lia].
  destruct (N.leb_spec c 13); [lia|].
  destruct (N.eqb_spec c 32); [lia|].
  destruct (N.leb_spec 48 c); [|lia].
  destruct (N.leb_spec c 57); [|lia].
  destruct (N.eqb_spec c 43); [lia|].
  destruct (N.eqb_spec c 45); [lia|].
  repeat split.
Qed.

(** The index written by the serializer is the one [int] reads, as long
    as it has no more digits than [int] accepts. *)
Lemma py_int_format_nat (n : nat) :
  length (format_nat n) <= int_max_str_digits ->
  py_int (format_nat n) = Some (Z.of_nat n).
Proof.
  intros Hlen. unfold py_int.
  pose proof (uint_codes_digits (Nat.to_uint n)) as Hd.
  fold (format_nat n) in Hd.
  assert (Hmap : map to_ascii (format_nat n) = format_nat n).
  { rewrite <- (map_id (format_nat n)) at 2. apply map_ext_in.
    intros c Hin. rewrite Forall_forall in Hd.
    apply (digit_facts c (Hd c Hin)). }
  assert (Hns : Forall (fun c => is_ascii_space c = false) (format_nat n)).
  { eapply Forall_impl; [|exact Hd]. intros c Hc.
    apply (digit_facts c Hc). }
  assert (Hcount : count_digits (format_nat n) = length (format_nat n)).
  { unfold count_digits. f_equal. apply filter_all.
    eapply Forall_impl; [|exact Hd]. intros c Hc.
    apply (digit_facts c Hc). }
  rewrite Hmap, (strip_ascii_no_space _ Hns).
  destruct (format_nat_cons n) as (c & ds & E & Hc).
  pose proof (parse_digits_uint (Nat.to_uint n) false 0
                (or_intror (to_uint_not_nil n))) as P.
  fold (format_nat n) in P. fold (Nat.of_uint (Nat.to_uint n)) in P.
  rewrite DecimalNat.Unsigned.of_to in P. rewrite E in *.
  destruct (digit_facts c Hc) as (_ & _ & _ & Hsign & Hminus).
  rewrite Hsign. cbv zeta. change (Z.of_nat 0) with 0%Z in P. rewrite P, Hcount.
  destruct (Nat.ltb_spec int_max_str_digits (length (c :: ds))) as [Hlt|_];
    [lia|].
  now rewrite Hminus.
Qed.

(** A character that cannot start or continue a separator joins the
    current block. *)
Lemma split_blocks_push (c : N) (s : str) :
  c <> CR ->
  match s with
  | d :: _ => ~ (c = LF /\ d = LF)
  | [] => True
  end ->
  split_blocks (c :: s) = push_char c (split_blocks s).
Proof.
  intros Hcr Hlf. rewrite split_blocks_step.
  destruct s as [|d s'']; [reflexivity|].
  destruct (N.eqb_spec c LF) as [->|Hc]; cbn [andb].
  - destruct (N.eqb_spec d LF) as [->|Hd]; [now elim Hlf|].
    destruct (N.eqb_spec LF CR); [discriminate|].
    destruct s'' as [|e [|f s4]]; reflexivity.
  - apply N.eqb_neq in Hcr. rewrite Hcr.
    destruct s'' as [|e [|f s4]]; reflexivity.
Qed.

Lemma split_blocks_tight (b rest : str) :
  tight b ->
  split_blocks (b ++ LF :: LF :: rest) = b :: split_blocks rest.
Proof.
  induction b as [|c b IH]; intros Ht.
  - cbn [app]. rewrite split_blocks_step. reflexivity.
  - cbn [tight] in Ht. destruct Ht as (Hcr & Hnext & Ht).
    cbn [app]. rewrite split_blocks_push.
    + rewrite (IH Ht). reflexivity.
    + exact Hcr.
    + destruct b as [|d b']; cbn [app].
      * intros [E _]. now apply Hnext.
      * exact Hnext.
Qed.

Lemma plain_cons (c : N) (l : str) :
  plain (c :: l) = true -> c <> CR /\ c <> LF /\ plain l = true.
Proof.
  unfold plain. cbn [forallb]. intros H.
  apply andb_prop in H. destruct H as [H Hl].
  apply andb_prop in H. destruct H as [H1 H2].
  repeat split; [| |exact Hl]; intros ->; discriminate.
Qed.

Lemma plain_free (l : str) :
  plain l = true -> ~ In LF l /\ ~ In CR l.
Proof.
  unfold plain. rewrite forallb_forall. intros H.
  split; intros Hin; specialize (H _ Hin); discriminate.
Qed.

Lemma tight_plain (l : str) : plain l = true -> tight l.
Proof.
  induction l as [|c l IH]; intros Hp; [exact I|].
  destruct (plain_cons c l Hp) as (Hcr & Hlf & Hl).
  cbn [tight]. split; [exact Hcr|]. split; [|now apply IH].
  destruct l; [exact Hlf|]. intros [E _]. now apply Hlf.
Qed.

Lemma tight_line (l : str) (x : N) (r : str) :
  plain l = true -> l <> [] -> x <> LF -> tight (x :: r) ->
  tight (l ++ LF :: x :: r).
Proof.
  intros Hp Hne Hx Hr. induction l as [|c l IH]; [congruence|].
  destruct (plain_cons c l Hp) as (Hcr & Hlf & Hl).
  cbn [app]. change (tight (c :: (l ++ LF :: x :: r))).
  destruct l as [|d l'].
  - cbn [app]. split; [exact Hcr|].
    split; [intros [E _]; now apply Hlf|].
    split; [discriminate|]. split; [intros [_ E]; now apply Hx|].
    exact Hr.
  - split; [exact Hcr|].
    split; [cbn [app]; intros [E _]; now apply Hlf|].
    apply IH; [exact Hl|discriminate].
Qed.

Lemma format_nat_plain (n : nat) : plain (format_nat n) = true.
Proof.
  unfold plain. apply forallb_forall. intros c Hc.
  pose proof (uint_codes_digits (Nat.to_uint n)) as Hd.
  rewrite Forall_forall in Hd. specialize (Hd c Hc). cbv beta in Hd.
  destruct (N.eqb_spec c CR) as [->|_]; [unfold CR in Hd; lia|].
  destruct (N.eqb_spec c LF) as [->|_]; [unfold LF in Hd; lia|].
  reflexivity.
Qed.

Lemma single_line_unit_fields (u : OutputUnit) :
  single_line_unit u = true ->
  (exists x r, out_timestamp u = x :: r /\ x <> LF)
  /\ (exists x r, out_text u = x :: r /\ x <> LF)
  /\ plain (out_timestamp u) = true
  /\ plain (out_text u) = true.
Proof.
  unfold single_line_unit. intros H.
  apply andb_prop in H. destruct H as [H Hpx].
  apply andb_prop in H. destruct H as [H Hpt].
  apply andb_prop in H. destruct H as [Ht Hx].
  repeat split; try assumption.
  - destruct (out_timestamp u) as [|x r]; [discriminate|].
    destruct (plain_cons x r Hpt) as (_ & Hlf & _). eauto.
  - destruct (out_text u) as [|x r]; [discriminate|].
    destruct (plain_cons x r Hpx) as (_ & Hlf & _). eauto.
Qed.

Lemma unit_block_tight (u : OutputUnit) :
  single_line_unit u = true -> tight (unit_block u).
Proof.
  intros H.
  destruct (single_line_unit_fields u H)
    as ((x & r & Et & Hx) & (y & q & Ex & Hy) & Hpt & Hpx).
  destruct (format_nat_cons (out_index u)) as (c & ds & Ef & Hc).
  unfold unit_block. rewrite Et, Ex in *. cbn [app].
  apply tight_line.
  - apply format_nat_plain.
  - rewrite Ef. discriminate.
  - exact Hx.
  - change (tight ((x :: r) ++ LF :: y :: q)).
    apply tight_line.
    + exact Hpt.
    + discriminate.
    + exact Hy.
    + now apply tight_plain.
Qed.

Lemma unit_block_not_blank (u : OutputUnit) :
  truthy (strip (unit_block u)) = true.
Proof.
  rewrite truthy_strip. unfold unit_block, is_blank.
  destruct (format_nat_cons (out_index u)) as (c & ds & E & Hc).
  rewrite E. cbn [app forallb].
  assert (Hs : is_space c = false).
  { unfold is_space.
    repeat match goal with
           | |- context [(?a <=? ?b)%N] =>
               destruct (N.leb_spec a b); try lia
           | |- context [(?a =? ?b)%N] =>
               destruct (N.eqb_spec a b); try lia
           end; reflexivity. }
  now rewrite Hs.
Qed.

Lemma unit_block_parses (u : OutputUnit) :
  single_line_unit u = true ->
  parse_segment (unit_block u) = Returned (read_back u).
Proof.
  intros H.
  destruct (single_line_unit_fields u H) as (_ & _ & Hpt & Hpx).
  pose proof (parse_segment_joined_lines false (format_nat (out_index u))
                (out_timestamp u) [out_text u]) as P.
  cbn [join] in P. unfold unit_block. cbn [app] in P |- *.
  rewrite P; [reflexivity|].
  constructor; [apply plain_free, format_nat_plain|].
  constructor; [now apply plain_free|].
  constructor; [now apply plain_free|constructor].
Qed.

Lemma render_is_block (u : OutputUnit) :
  render u = unit_block u ++ [LF; LF].
Proof.
  unfold render, srt_block, unit_block. now rewrite <- !app_assoc.
Qed.

Lemma split_blocks_of_output (units : list OutputUnit) :
  forallb single_line_unit units = true ->
  split_blocks (concat (map render units)) = map unit_block units ++ [[]].
Proof.
  induction units as [|u units IH]; intros H; [reflexivity|].
  cbn [forallb] in H. apply andb_prop in H. destruct H as [Hu Hrest].
  cbn [map concat app]. rewrite render_is_block, <- app_assoc. cbn [app].
  rewrite split_blocks_tight by (now apply unit_block_tight).
  now rewrite (IH Hrest).
Qed.

Lemma parse_all_unit_blocks (units : list OutputUnit) :
  forallb single_line_unit units = true ->
  parse_all (map unit_block units) = Returned (map read_back units).
Proof.
  induction units as [|u units IH]; intros H; [reflexivity|].
  cbn [forallb] in H. apply andb_prop in H. destruct H as [Hu Hrest].
  cbn [map parse_all]. now rewrite (unit_block_parses u Hu), (IH Hrest).
Qed.

Lemma read_back_within_limit (units : list OutputUnit) :
  Forall (fun u => length (format_nat (out_index u)) <= int_max_str_digits)
    units ->
  map read_back units = map segment_of_unit units.
Proof.
  intros Hall. apply map_ext_in. intros u Hin.
  rewrite Forall_forall in Hall. unfold read_back, segment_of_unit.
  now rewrite (py_int_format_nat _ (Hall u Hin)).
Qed.

Lemma output_blocks_kept (units : list OutputUnit) :
  filter (fun seg => truthy (strip seg)) (map unit_block units ++ [[]])
  = map unit_block units.
Proof.
  rewrite filter_app. cbn [filter]. 
  assert (E : truthy (strip []) = false) by reflexivity.
  rewrite E, app_nil_r.
  apply filter_all. apply Forall_map, Forall_forall.
  intros u _. apply unit_block_not_blank.
Qed.

(** X24. What the serializer writes, the parser reads back: for units
    whose timestamps and texts are non-empty and hold no CR or LF, and
    whose indices have no more digits than [int] accepts, the
    concatenated blocks split and parse, without error, into one segment
    per unit with the same index, timestamp and text. *)
Theorem output_parses_back (units : list OutputUnit) :
  forallb single_line_unit units = true ->
  Forall (fun u => length (format_nat (out_index u)) <= int_max_str_digits)
    units ->
  parse_all (filter (fun seg => truthy (strip seg))
               (split_blocks (concat (map render units))))
  = Returned (map segment_of_unit units).
Proof.
  intros H Hlimit.
  rewrite (split_blocks_of_output units H), output_blocks_kept.
  rewrite <- (read_back_within_limit units Hlimit).
  now apply parse_all_unit_blocks.
Qed.

Lemma output_parses_back_witness :
  let units :=
    [mkUnit 1 (py "00:00:00,000 --> 00:00:02,000") (py "Bonjour");
     mkUnit 2 (py "00:00:02,000 --> 00:00:04,000") (py "Monde")] in
  forallb single_line_unit units = true
  /\ Forall (fun u => length (format_nat (out_index u))
                      <= int_max_str_digits) units
  /\ concat (map render units) = example_output
  /\ parse_all (filter (fun seg => truthy (strip seg))
                  (split_blocks (concat (map render units))))
     = Returned (map segment_of_unit units).
Proof.
  intros units.
  assert (H : forallb single_line_unit units = true)
    by (vm_compute; reflexivity).
  assert (Hlimit : Forall (fun u => length (format_nat (out_index u))
                                    <= int_max_str_digits) units).
  { constructor; [apply Nat.leb_le; vm_compute; reflexivity|].
    constructor; [apply Nat.leb_le; vm_compute; reflexivity|].
    constructor. }
  split; [exact H|]. split; [exact Hlimit|].
  split; [vm_compute; reflexivity|].
  exact (output_parses_back units H Hlimit).
Defined.

Lemma units_of_read_back (units : list OutputUnit) :
  forall k,
    map out_index units = seq k (length units) ->
    Forall (fun u => strip (out_text u) = out_text u) units ->
    units_of_segments k (map read_back units) = units.
Proof.
  unfold units_of_segments.
  induction units as [|u units IH]; intros k Hidx Hstr; [reflexivity|].
  inversion Hstr as [|? ? Hu Hrest]; subst.
  cbn [map length seq] in Hidx. injection Hidx as Hk Hidx.
  cbn [map length seq combine fst snd read_back timestamp text].
  rewrite length_map in *. rewrite (IH (S k) Hidx Hrest), Hu, <- Hk.
  destruct u; reflexivity.
Qed.

(** X25. Translating the output again: a file made of the rendered units
    of a run, numbered from 1, with single-line non-empty timestamps and
    texts that are trimmed and hold no bar, given to a run whose backend
    answers each batch with one fragment per segment (the texts
    themselves), comes back unchanged. *)
Theorem output_is_stable_under_identity
  (backend : nat -> str -> outcome str) (api_key : str)
  (target_language : str) (w : world) (units : list OutputUnit) :
  (forall n t, backend n (user_prompt t target_language) = Returned t) ->
  api_key <> [] ->
  forallb single_line_unit units = true ->
  map out_index units = seq 1 (length units) ->
  Forall (fun u => strip (out_text u) = out_text u
                   /\ ~ In BAR (out_text u)) units ->
  exists w',
    translate_srt_file backend (Some api_key) (concat (map render units))
      target_language w
    = (Returned (concat (map render units)), w').
Proof.
  intros Hecho Hkey Hsl Hidx Hall.
  assert (Hparse :
    parse_all (filter (fun seg => truthy (strip seg))
                 (split_blocks (concat (map render units))))
    = Returned (map read_back units)).
  { rewrite (split_blocks_of_output units Hsl), output_blocks_kept.
    now apply parse_all_unit_blocks. }
  assert (Hsegs :
    Forall (fun s => is_blank (text s) = false /\ ~ In BAR (text s))
      (map read_back units)).
  { apply Forall_map. rewrite forallb_forall in Hsl.
    rewrite Forall_forall in Hall |- *. intros u Hu.
    destruct (Hall u Hu) as [Hs Hb]. cbn [read_back text].
    split; [|exact Hb].
    destruct (single_line_unit_fields u (Hsl u Hu))
      as (_ & (x & r & Ex & _) & _ & _).
    destruct (is_blank (out_text u)) eqn:B; [|reflexivity].
    apply strip_nil_iff in B. rewrite Hs, Ex in B. discriminate. }
  destruct (identity_translation_run backend api_key
              (concat (map render units)) target_language w
              (map read_back units) Hecho Hkey Hparse Hsegs)
    as (w' & E & _).
  exists w'. rewrite E. rewrite units_of_read_back; [reflexivity| |].
  - exact Hidx.
  - eapply Forall_impl; [|exact Hall]. now intros u [Hs _].
Qed.

Lemma output_is_stable_under_identity_witness :
  let units :=
    [mkUnit 1 (py "00:00:00,000 --> 00:00:02,000") (py "Bonjour");
     mkUnit 2 (py "00:00:02,000 --> 00:00:04,000") (py "Monde")] in
  (forall n t, echo (py "French") n (user_prompt t (py "French"))
               = Returned t)
  /\ py "key" <> []
  /\ forallb single_line_unit units = true
  /\ map out_index units = seq 1 (length units)
  /\ Forall (fun u => strip (out_text u) = out_text u
                      /\ ~ In BAR (out_text u)) units
  /\ exists w',
       translate_srt_file (echo (py "French")) (Some (py "key"))
         (concat (map render units)) (py "French") []
       = (Returned (concat (map render units)), w').
Proof.
  intros units.
  assert (H1 : forall n t, echo (py "French") n (user_prompt t (py "French"))
                           = Returned t)
    by (intros n t; apply echo_answers).
  assert (H2 : py "key" <> []) by discriminate.
  assert (H3 : forallb single_line_unit units = true)
    by (vm_compute; reflexivity).
  assert (H4 : map out_index units = seq 1 (length units))
    by (vm_compute; reflexivity).
  assert (Hfree : forall l : str,
             forallb (fun c => negb (c =? BAR)%N) l = true -> ~ In BAR l).
  { intros l H Hin. rewrite forallb_forall in H.
    specialize (H _ Hin). discriminate. }
  assert (H5 : Forall (fun u => strip (out_text u) = out_text u
                                /\ ~ In BAR (out_text u)) units).
  { constructor;
      [split; [vm_compute; reflexivity
              |apply Hfree; vm_compute; reflexivity]|].
    constructor;
      [split; [vm_compute; reflexivity
              |apply Hfree; vm_compute; reflexivity]|].
    constructor. }
  split; [exact H1|]. split; [exact H2|]. split; [exact H3|].
  split; [exact H4|]. split; [exact H5|].
  exact (output_is_stable_under_identity (echo (py "French")) (py "key")
           (py "French") [] units H1 H2 H3 H4 H5).
Defined.

(** * The reconciler within a run *)

Lemma split_char_cons (sep : N) (s : str) :
  exists p ps, split_char sep s = p :: ps.
Proof.
  destruct s as [|c s]; cbn [split_char]; [eauto|].
  destruct (c =? sep)%N; [eauto|].
  destruct (push_char_cons c (split_char sep s)) as (p & ps & E).
  rewrite E. eauto.
Qed.

Lemma join_push_char (sep : str) (c : N) (pieces : list str) :
  pieces <> [] ->
  join sep (push_char c pieces) = c :: join sep pieces.
Proof.
  destruct pieces as [|p [|q ps]]; [congruence| |]; reflexivity.
Qed.

(** [split_char] does split: the pieces joined by the separator are the
    string, and no piece holds the separator. *)
Lemma split_char_is_split (sep : N) (s : str) :
  is_split_of sep s (split_char sep s).
Proof.
  unfold is_split_of.
  induction s as [|c s (Hne & Hjoin & Hall)].
  - split; [discriminate|]. split; [reflexivity|].
    constructor; [intros []|constructor].
  - destruct (split_char_cons sep s) as (p & ps & E).
    cbn [split_char]. destruct (N.eqb_spec c sep) as [->|Hc].
    + split; [discriminate|]. split.
      * rewrite E in *. rewrite join_cons2. cbn [app]. now rewrite Hjoin.
      * constructor; [intros []|exact Hall].
    + split; [|split].
      * rewrite E. discriminate.
      * rewrite join_push_char by exact Hne. now rewrite Hjoin.
      * rewrite E in *. cbn [push_char].
        inversion Hall as [|? ? Hp Hps]; subst.
        constructor; [|exact Hps].
        intros [H|H]; [congruence|now apply Hp].
Qed.

(** [strip] does trim: what it removes at both ends is whitespace, and
    what it leaves starts and ends with something else. *)
Lemma strip_is_trimmed (f : str) : is_trimmed_of f (strip f).
Proof.
  unfold is_trimmed_of.
  destruct (lstrip_split f) as (lead & Ef & Blead).
  destruct (lstrip_split (rev (lstrip f))) as (v & Ev & Bv).
  exists lead, (rev v).
  assert (Estrip : lstrip f = strip f ++ rev v).
  { unfold strip, rstrip. rewrite <- rev_app_distr, <- Ev.
    now rewrite rev_involutive. }
  split; [now rewrite <- Estrip|]. split; [exact Blead|].
  split; [now rewrite is_blank_rev|].
  destruct (strip_shape f) as [E|(c & t & d & u & E & Hc & R & Hd)].
  - now rewrite E.
  - rewrite E. split; [exact Hc|].
    rewrite <- E.
    assert (Elast : strip f = rev u ++ [d]).
    { rewrite <- (rev_involutive (strip f)), R. reflexivity. }
    rewrite Elast, last_last. exact Hd.
Qed.

Lemma render_is_unit_lines (u : OutputUnit) : render u = unit_lines u.
Proof. reflexivity. Qed.

(** The units of a list of fragments, by position among the fragments
    that are not blank. *)
Lemma reconcile_units_nth (segments : list Segment) (fragments : list str) :
  forall running_index k f,
    nth_error (filter (fun f => negb (is_blank f)) fragments) k = Some f ->
    nth_error (reconcile_units segments running_index fragments) k
    = Some (mkUnit (running_index + k + 1)
              (timestamp_at segments (running_index + k + 1))
              (strip f)).
Proof.
  induction fragments as [|g fragments IH]; intros idx k f;
    cbn [filter reconcile_units].
  - destruct k; discriminate.
  - destruct (is_blank g) eqn:B; cbn [negb].
    + apply IH.
    + destruct k as [|k]; cbn [nth_error].
      * intros [= ->]. rewrite Nat.add_0_r. reflexivity.
      * intros H. rewrite (IH (idx + 1) k f H).
        replace (idx + 1 + k + 1) with (idx + S k + 1) by lia.
        reflexivity.
Qed.

(** C5. Reconciler semantics, for a whole run that returns.  Each text
    the backend returned is split on the bar; going through the
    fragments of all batches in order, the blank ones are skipped and the
    k-th non-blank one (counted from 0 across the whole run) gives the
    unit with index k + 1, the timestamp of the original segment at
    position k + 1 of the whole parsed segment list, or the empty
    timestamp when k + 1 exceeds the number of segments, and the fragment
    without its surrounding whitespace.  The result of the run is the
    concatenation of the units' renderings
    "{index}\n{timestamp}\n{text}\n\n". *)
Theorem reconciler_run_semantics
  (backend : nat -> str -> outcome str)
  (env_api_key : option str) (content target_language : str)
  (w : world) (result : str) (w' : world) (segments : list Segment) :
  parse_all (filter (fun seg => truthy (strip seg)) (split_blocks content))
  = Returned segments ->
  translate_srt_file backend env_api_key content target_language w
  = (Returned result, w') ->
  exists (fragments_per_batch : list (list str)) (units : list OutputUnit),
    Forall2 (is_split_of BAR) (returned_texts (skipn (length w) w'))
      fragments_per_batch
    /\ length fragments_per_batch
       = length (group_segments_by_token_length segments
                   MAX_TOKENS_IN_SEGMENT)
    /\ result = concat (map unit_lines units)
    /\ let kept :=
         filter (fun f => negb (is_blank f)) (concat fragments_per_batch) in
       length units = length kept
       /\ forall k f,
            nth_error kept k = Some f ->
            exists u,
              nth_error units k = Some u
              /\ out_index u = k + 1
              /\ (k + 1 <= length segments ->
                  exists s, nth_error segments k = Some s
                            /\ out_timestamp u = timestamp s)
              /\ (length segments < k + 1 -> out_timestamp u = [])
              /\ is_trimmed_of f (out_text u).
Proof.
  intros Hparse Hrun.
  rewrite translate_srt_file_cases, Hparse in Hrun.
  destruct env_api_key as [[|c api_key]|]; try discriminate.
  destruct (translate_groups _ _ _ _ _ _ _) as [[st|e] w1] eqn:G;
    [|discriminate].
  injection Hrun as <- <-.
  destruct (translate_groups_events _ _ _ _ _ _ _ _ _ G)
    as (events & -> & Hlen & ->).
  rewrite skipn_past_prefix, fold_reconcile. cbn [snd app].
  unfold fragments_of.
  set (texts := returned_texts events) in *.
  exists (map (split_char BAR) texts),
         (reconcile_units segments 0 (concat (map (split_char BAR) texts))).
  split.
  { clearbody texts. clear. induction texts as [|t texts IH]; cbn [map];
      constructor; [apply split_char_is_split|exact IH]. }
  split; [now rewrite length_map|].
  split.
  { rewrite (map_ext render unit_lines render_is_unit_lines). reflexivity. }
  cbv zeta. split.
  { rewrite reconcile_units_length. reflexivity. }
  intros k f Hk.
  eexists. split; [apply (reconcile_units_nth segments _ 0 k f Hk)|].
  cbn [out_index out_timestamp out_text]. rewrite Nat.add_0_l.
  split; [reflexivity|]. unfold timestamp_at.
  replace (k + 1 - 1) with k by lia.
  split; [|split].
  - intros Hle. destruct (Nat.ltb_spec (length segments) (k + 1)); [lia|].
    destruct (nth_error segments k) as [s|] eqn:E.
    + exists s. now split.
    + apply nth_error_None in E. lia.
  - intros Hlt. destruct (Nat.ltb_spec (length segments) (k + 1)); [|lia].
    reflexivity.
  - apply strip_is_trimmed.
Qed.

Lemma reconciler_run_semantics_witness :
  let w' := [Invoked (user_prompt (py "Hello|World") (py "French"))
               (Returned (py "  Bonjour | Monde\t|"))] in
  (parse_all (filter (fun seg => truthy (strip seg))
                (split_blocks example_input))
   = Returned example_segments
   /\ translate_srt_file padded_answer (Some (py "key")) example_input
        (py "French") [] = (Returned example_output, w'))
  /\ exists (fragments_per_batch : list (list str))
            (units : list OutputUnit),
       Forall2 (is_split_of BAR)
         (returned_texts (skipn (length (@nil event)) w'))
         fragments_per_batch
       /\ length fragments_per_batch
          = length (group_segments_by_token_length example_segments
                      MAX_TOKENS_IN_SEGMENT)
       /\ example_output = concat (map unit_lines units)
       /\ let kept :=
            filter (fun f => negb (is_blank f))
              (concat fragments_per_batch) in
          length units = length kept
          /\ forall k f,
               nth_error kept k = Some f ->
               exists u,
                 nth_error units k = Some u
                 /\ out_index u = k + 1
                 /\ (k + 1 <= length example_segments ->
                     exists s, nth_error example_segments k = Some s
                               /\ out_timestamp u = timestamp s)
                 /\ (length example_segments < k + 1 ->
                     out_timestamp u = [])
                 /\ is_trimmed_of f (out_text u).
Proof.
  intros w'.
  assert (H1 : parse_all (filter (fun seg => truthy (strip seg))
                            (split_blocks example_input))
               = Returned example_segments) by (vm_compute; reflexivity).
  assert (H2 : translate_srt_file padded_answer (Some (py "key"))
                 example_input (py "French") []
               = (Returned example_output, w')) by (vm_compute; reflexivity).
  split; [split; [exact H1|exact H2]|].
  exact (reconciler_run_semantics padded_answer (Some (py "key"))
           example_input (py "French") [] example_output w'
           example_segments H1 H2).
Defined.
